(** * Tic-tac-toe backend: a model of [src/api/main.py] and its properties

    The module keeps every game in the process-wide dictionary [_GAMES],
    which maps a game identifier to a [_Game] object.  The objects are
    mutable and are handled by reference, so the model has an explicit
    object store: the dictionary holds addresses, and the objects live in
    a list indexed by address.  The three request handlers are
    computations in a state-and-exception monad over that store. *)

From stdpp Require Import gmap strings list.
From Stdlib Require Import ZArith.

Local Open Scope string_scope.
Local Open Scope list_scope.

(** ** Exceptions and results *)

(** The exceptions the module can raise: the [HTTPException]s of the
    handlers and the [IndexError] of list indexing. *)
Inductive exn : Type :=
  | HTTPException (status_code : Z) (detail : string)
  | IndexError.

Inductive result (A : Type) : Type :=
  | Ok (a : A)
  | Raise (e : exn).
Arguments Ok {A} a.
Arguments Raise {A} e.

#[global] Instance exn_eq_dec : EqDecision exn.
Proof. solve_decision. Defined.

(** ** Python lists *)

(** [l[i]] for an integer [i]: a negative index counts from the end, and
    an index outside [-len(l), len(l))] raises [IndexError]. *)
Definition list_index {A} (l : list A) (i : Z) : option nat :=
  let n := Z.of_nat (length l) in
  if bool_decide (0 ≤ i < n)%Z then Some (Z.to_nat i)
  else if bool_decide (- n ≤ i < 0)%Z then Some (Z.to_nat (n + i))
  else None.

Definition getitem {A} (l : list A) (i : Z) : result A :=
  match list_index l i ≫= (l !!.) with
  | Some x => Ok x
  | None => Raise IndexError
  end.

(** [l[i] = x] *)
Definition setitem {A} (l : list A) (i : Z) (x : A) : result (list A) :=
  match list_index l i with
  | Some k => Ok (<[k := x]> l)
  | None => Raise IndexError
  end.

(** ** Data model *)

(** [class _Game]: the three attributes set by [__init__]. *)
Record _Game : Type := mk_Game {
  board : list string;
  next_player : string;
  status : string;
}.

(** [class GameState(BaseModel)]: the state returned by the API. *)
Record GameState : Type := mkGameState {
  state_board : list string;
  nextPlayer : string;
  state_status : string;
}.

(** [class MoveRequest(BaseModel)]: the payload of a move. *)
Record MoveRequest : Type := mkMoveRequest {
  position : Z;
}.

(** The bounds [ge=0, le=8] declared on the field, which the request
    parser enforces before a handler is entered. *)
Definition MoveRequest_valid (payload : MoveRequest) : bool :=
  bool_decide (0 ≤ position payload)%Z && bool_decide (position payload ≤ 8)%Z.

(** [class CreateGameResponse(BaseModel)] *)
Record CreateGameResponse : Type := mkCreateGameResponse {
  gameId : string;
}.

#[global] Instance _Game_eq_dec : EqDecision _Game.
Proof. solve_decision. Defined.
#[global] Instance GameState_eq_dec : EqDecision GameState.
Proof. solve_decision. Defined.

(** [_Game.__init__] *)
Definition _Game__init__ : _Game :=
  {| board := replicate 9 ""; next_player := "X"; status := "IN_PROGRESS" |}.

#[global] Instance _Game_inhabited : Inhabited _Game := populate _Game__init__.

(** ** The object store *)

(** An address names one [_Game] object. *)
Abbreviation addr := nat.

(** [_GAMES] is the module-level dictionary; [objects] holds every [_Game]
    allocated so far, at its address. *)
Record Store : Type := mkStore {
  _GAMES : gmap string addr;
  objects : list _Game;
}.

(** The store when the module has just been loaded: [_GAMES = {}]. *)
Definition initial_store : Store := {| _GAMES := ∅; objects := [] |}.

Definition store_set (s : Store) (g : addr) (v : _Game) : Store :=
  {| _GAMES := _GAMES s; objects := <[g := v]> (objects s) |}.

(** ** The monad of handlers *)

(** A computation reads and writes the store and either returns a value
    or raises; a raise keeps whatever the store was at that moment. *)
Definition M (A : Type) : Type := Store → result A * Store.

Definition ret {A} (a : A) : M A := λ s, (Ok a, s).

Definition raise {A} (e : exn) : M A := λ s, (Raise e, s).

Definition bind {A B} (m : M A) (k : A → M B) : M B :=
  λ s, match m s with
       | (Ok a, s') => k a s'
       | (Raise e, s') => (Raise e, s')
       end.

Definition lift {A} (r : result A) : M A := λ s, (r, s).

Declare Scope py_scope.
Delimit Scope py_scope with py.
Notation "x <- m ;; k" := (bind m (λ x, k))
  (at level 100, m at next level, right associativity) : py_scope.
Notation "m ;;; k" := (bind m (λ _, k))
  (at level 100, right associativity) : py_scope.
Local Open Scope py_scope.

(** Reading the object at an address.  Every address the dictionary holds
    is allocated (see [store_inv]); the default is never observed on such
    stores. *)
Definition deref (game : addr) : M _Game := λ s, (Ok (objects s !!! game), s).

(** [_Game()]: allocate a new object at the next free address. *)
Definition new_Game : M addr :=
  λ s, (Ok (length (objects s)),
        {| _GAMES := _GAMES s; objects := objects s ++ [_Game__init__] |}).

(** Attribute reads: [game.board], [game.next_player], [game.status]. *)
Definition get_board (game : addr) : M (list string) :=
  g <- deref game;; ret (board g).
Definition get_next_player (game : addr) : M string :=
  g <- deref game;; ret (next_player g).
Definition get_status (game : addr) : M string :=
  g <- deref game;; ret (status g).

(** An object with one attribute replaced. *)
Definition with_board (g : _Game) (v : list string) : _Game :=
  {| board := v; next_player := next_player g; status := status g |}.
Definition with_next_player (g : _Game) (v : string) : _Game :=
  {| board := board g; next_player := v; status := status g |}.
Definition with_status (g : _Game) (v : string) : _Game :=
  {| board := board g; next_player := next_player g; status := v |}.

(** Attribute writes: [game.status = v], [game.next_player = v]. *)
Definition set_status (game : addr) (v : string) : M unit :=
  λ s, (Ok tt, store_set s game (with_status (objects s !!! game) v)).
Definition set_next_player (game : addr) (v : string) : M unit :=
  λ s, (Ok tt, store_set s game (with_next_player (objects s !!! game) v)).

(** [game.board[pos]] and [game.board[pos] = v]; the list is owned by the
    object ([to_state] hands out a copy), so it is stored in place. *)
Definition board_getitem (game : addr) (pos : Z) : M string :=
  b <- get_board game;; lift (getitem b pos).
Definition board_setitem (game : addr) (pos : Z) (v : string) : M unit :=
  λ s, let g := objects s !!! game in
       match setitem (board g) pos v with
       | Ok b' => (Ok tt, store_set s game (with_board g b'))
       | Raise e => (Raise e, s)
       end.

(** [_GAMES.get(gameId)] and [_GAMES[game_id] = game] *)
Definition _GAMES_get (gameId : string) : M (option addr) :=
  λ s, (Ok (_GAMES s !! gameId), s).
Definition _GAMES_setitem (game_id : string) (game : addr) : M unit :=
  λ s, (Ok tt, {| _GAMES := <[game_id := game]> (_GAMES s); objects := objects s |}).

(** ** The evaluator *)

(** The truth value of a string: the empty string is false. *)
Definition truthy (x : string) : bool := bool_decide (x ≠ "").

(** [cell in ("X", "O")] *)
Definition in_X_O (cell : string) : bool :=
  bool_decide (cell = "X") || bool_decide (cell = "O").

Definition winning_lines : list (Z * Z * Z) :=
  [ (0, 1, 2); (3, 4, 5); (6, 7, 8);   (* rows *)
    (0, 3, 6); (1, 4, 7); (2, 5, 8);   (* cols *)
    (0, 4, 8); (2, 4, 6) ]%Z.          (* diags *)

(** The test of one line, [board[a] and board[a] == board[b] == board[c]],
    with the evaluation order of Python: [board[b]] is read once, and
    [board[c]] only when the first comparison holds. *)
Definition line_test (board : list string) (a b c : Z) : result bool :=
  match getitem board a with
  | Raise e => Raise e
  | Ok x =>
    if truthy x then
      match getitem board a with
      | Raise e => Raise e
      | Ok xa =>
        match getitem board b with
        | Raise e => Raise e
        | Ok xb =>
          if bool_decide (xa = xb) then
            match getitem board c with
            | Raise e => Raise e
            | Ok xc => Ok (bool_decide (xb = xc))
            end
          else Ok false
        end
      end
    else Ok false
  end.

(** The loop of [_check_winner] over the lines still to be tried. *)
Fixpoint _check_winner_loop (board : list string) (lines : list (Z * Z * Z))
  : result (option string) :=
  match lines with
  | [] => Ok None
  | (a, b, c) :: lines' =>
    match line_test board a b c with
    | Raise e => Raise e
    | Ok true =>
      match getitem board a with
      | Raise e => Raise e
      | Ok x => Ok (Some x)
      end
    | Ok false => _check_winner_loop board lines'
    end
  end.

Definition _check_winner (board : list string) : result (option string) :=
  _check_winner_loop board winning_lines.

Definition _update_status (game : addr) : M unit :=
  b <- get_board game;;
  winner <- lift (_check_winner b);;
  if bool_decide (winner = Some "X") then set_status game "X_WON"
  else if bool_decide (winner = Some "O") then set_status game "O_WON"
  else
    b' <- get_board game;;
    if forallb in_X_O b' then set_status game "DRAW"
    else set_status game "IN_PROGRESS".

(** ** The handlers *)

(** [_Game.to_state]: the board is copied. *)
Definition state_of (g : _Game) : GameState :=
  {| state_board := board g; nextPlayer := next_player g;
     state_status := status g |}.
Definition to_state (self : addr) : M GameState :=
  g <- deref self;; ret (state_of g).

(** [create_game]; [uuid] is the value [str(uuid.uuid4())] produced. *)
Definition create_game (uuid : string) : M CreateGameResponse :=
  let game_id := uuid in
  game <- new_Game;;
  _GAMES_setitem game_id game;;;
  ret {| gameId := game_id |}.

Definition get_game_state (gameId : string) : M GameState :=
  game <- _GAMES_get gameId;;
  match game with
  | None => raise (HTTPException 404 "Game not found")
  | Some game => to_state game
  end.

Definition make_move (payload : MoveRequest) (gameId : string) : M GameState :=
  game <- _GAMES_get gameId;;
  match game with
  | None => raise (HTTPException 404 "Game not found")
  | Some game =>
    st <- get_status game;;
    if bool_decide (st ≠ "IN_PROGRESS") then
      raise (HTTPException 400 "Game is already finished")
    else
      let pos := position payload in
      if negb (bool_decide (0 ≤ pos)%Z && bool_decide (pos ≤ 8)%Z) then
        raise (HTTPException 400 "Position must be between 0 and 8")
      else
        cell <- board_getitem game pos;;
        if in_X_O cell then
          raise (HTTPException 400 "Cell is already occupied")
        else
          symbol <- get_next_player game;;
          board_setitem game pos symbol;;;
          _update_status game;;;
          st' <- get_status game;;
          (if bool_decide (st' = "IN_PROGRESS") then
             np <- get_next_player game;;
             set_next_player game (if bool_decide (np = "X") then "O" else "X")
           else ret tt);;;
          to_state game
  end.

(** The error kinds of the specification, as the exceptions raised. *)
Definition GameNotFound : exn := HTTPException 404 "Game not found".
Definition GameFinished : exn := HTTPException 400 "Game is already finished".
Definition InvalidPosition : exn := HTTPException 400 "Position must be between 0 and 8".
Definition CellOccupied : exn := HTTPException 400 "Cell is already occupied".

(** ** Requests and reachable stores *)

Inductive request : Type :=
  | POST_games (uuid : string)
  | GET_game (gameId : string)
  | POST_moves (gameId : string) (payload : MoveRequest).

(** The store after one request, whether it succeeded or raised. *)
Definition step (r : request) (s : Store) : Store :=
  match r with
  | POST_games uuid => (create_game uuid s).2
  | GET_game gameId => (get_game_state gameId s).2
  | POST_moves gameId payload => (make_move payload gameId s).2
  end.

Definition run (rs : list request) (s : Store) : Store :=
  foldl (λ s r, step r s) s rs.

Definition reachable (s : Store) : Prop := ∃ rs, s = run rs initial_store.


(** * Vocabulary of the statements *)

(** ** Marks, boards and statuses *)

Definition is_mark (c : string) : Prop := c = "" ∨ c = "X" ∨ c = "O".
Definition is_player (p : string) : Prop := p = "X" ∨ p = "O".
Definition is_board (b : list string) : Prop := length b = 9 ∧ Forall is_mark b.
Definition terminal (st : string) : Prop := st = "X_WON" ∨ st = "O_WON" ∨ st = "DRAW".

(** ** Lines *)

(** Line [l] is completed by the mark [m] on board [b]. *)
Definition line_wins (b : list string) (m : string) (l : Z * Z * Z) : Prop :=
  m ≠ "" ∧
  b !! Z.to_nat l.1.1 = Some m ∧
  b !! Z.to_nat l.1.2 = Some m ∧
  b !! Z.to_nat l.2 = Some m.

#[global] Instance line_wins_dec b m l : Decision (line_wins b m l).
Proof. unfold line_wins. apply _. Defined.

(** Some winning line is completed by [m]. *)
Definition wins (b : list string) (m : string) : Prop :=
  ∃ l, l ∈ winning_lines ∧ line_wins b m l.

#[global] Instance wins_dec b m : Decision (wins b m).
Proof.
  refine (cast_if (decide (Exists (line_wins b m) winning_lines)));
    unfold wins; rewrite Exists_exists in *; done.
Defined.

Definition line_in_range (n : nat) (l : Z * Z * Z) : Prop :=
  (0 ≤ l.1.1 < Z.of_nat n)%Z ∧ (0 ≤ l.1.2 < Z.of_nat n)%Z ∧ (0 ≤ l.2 < Z.of_nat n)%Z.

(** The lines of the 3x3 grid in row-major order, as the specification
    names them. *)
Definition rows : list (Z * Z * Z) :=
  (λ r, (3 * r, 3 * r + 1, 3 * r + 2)%Z) <$> [0; 1; 2]%Z.
Definition columns : list (Z * Z * Z) :=
  (λ c, (c, c + 3, c + 6)%Z) <$> [0; 1; 2]%Z.
Definition diagonals : list (Z * Z * Z) := [(0, 4, 8); (2, 4, 6)]%Z.

(** [m] completes a line, and no line before it in [winning_lines] is
    completed by any mark. *)
Definition first_completed (b : list string) (m : string) : Prop :=
  ∃ pre l post, winning_lines = pre ++ l :: post ∧ line_wins b m l ∧
                ∀ l' m', l' ∈ pre → ¬ line_wins b m' l'.

(** ** Outcomes of the handlers *)

Definition is_error_kind (e : exn) : Prop :=
  e = GameNotFound ∨ e = GameFinished ∨ e = InvalidPosition ∨ e = CellOccupied.

(** The status [_update_status] assigns, given the winner found. *)
Definition status_of (winner : option string) (b : list string) : string :=
  if bool_decide (winner = Some "X") then "X_WON"
  else if bool_decide (winner = Some "O") then "O_WON"
  else if forallb in_X_O b then "DRAW"
  else "IN_PROGRESS".

(** The object after a successful move of [payload] on [G], given the
    winner found on the new board. *)
Definition moved (payload : MoveRequest) (G : _Game) (w : option string) : _Game :=
  let b' := <[Z.to_nat (position payload) := next_player G]> (board G) in
  let st' := status_of w b' in
  {| board := b';
     next_player :=
       if bool_decide (st' = "IN_PROGRESS")
       then (if bool_decide (next_player G = "X") then "O" else "X")
       else next_player G;
     status := st' |}.

(** ** Invariants of reachable stores *)

(** The number of cells of [b] that hold the mark [m]. *)
Definition count_mark (m : string) (b : list string) : nat :=
  length (filter (λ c, c = m) b).

Definition game_inv (G : _Game) : Prop :=
  is_board (board G) ∧ is_player (next_player G) ∧
  (status G = "IN_PROGRESS" ∨ terminal (status G)) ∧
  (count_mark "X" (board G) = count_mark "O" (board G) ∨
   count_mark "X" (board G) = S (count_mark "O" (board G))) ∧
  (status G = "IN_PROGRESS" →
   next_player G = "X" ↔ count_mark "X" (board G) = count_mark "O" (board G)).

(** Every identifier names an allocated object, no two identifiers name
    the same object, and every object is a well-formed game. *)
Definition store_inv (s : Store) : Prop :=
  (∀ id g, _GAMES s !! id = Some g → g < length (objects s)) ∧
  (∀ id1 id2 g, _GAMES s !! id1 = Some g → _GAMES s !! id2 = Some g → id1 = id2) ∧
  Forall game_inv (objects s).

(** What a request does to a store that satisfies the invariant. *)
Inductive step_effect (s : Store) : request → Store → Prop :=
  | effect_none r :
      (∀ uuid, r ≠ POST_games uuid) → step_effect s r s
  | effect_create uuid :
      step_effect s (POST_games uuid)
        {| _GAMES := <[uuid := length (objects s)]> (_GAMES s);
           objects := objects s ++ [_Game__init__] |}
  | effect_move gameId payload g G w st :
      _GAMES s !! gameId = Some g → objects s !! g = Some G →
      status G = "IN_PROGRESS" →
      board G !! Z.to_nat (position payload) = Some "" →
      make_move payload gameId s = (Ok st, store_set s g (moved payload G w)) →
      step_effect s (POST_moves gameId payload) (store_set s g (moved payload G w)).

(** ** Worked runs *)

Definition move (n : Z) : MoveRequest := {| position := n |}.

(** Three games: "a" is played to a win of X on the first column, "b" is
    fresh, and "c" has one mark in the centre. *)
Definition played : list request :=
  [ POST_games "a"; POST_games "b"; POST_games "c";
    POST_moves "a" (move 0); POST_moves "a" (move 1); POST_moves "a" (move 3);
    POST_moves "a" (move 2); POST_moves "a" (move 6);
    POST_moves "c" (move 4) ].

Definition played_store : Store := run played initial_store.

Definition game_a : _Game :=
  {| board := ["X"; "O"; "O"; "X"; ""; ""; "X"; ""; ""];
     next_player := "X"; status := "X_WON" |}.

Definition game_c : _Game :=
  {| board := [""; ""; ""; ""; "X"; ""; ""; ""; ""];
     next_player := "O"; status := "IN_PROGRESS" |}.

(** A board that holds a full line of O above a full line of X. *)
Definition two_lines : _Game :=
  {| board := ["O"; "O"; "O"; "X"; "X"; "X"; ""; ""; ""];
     next_player := "X"; status := "IN_PROGRESS" |}.

Definition two_lines_store : Store :=
  {| _GAMES := {["t" := 0]}; objects := [two_lines] |}.

(** A full game without a winner, X and O alternating. *)
Definition drawn : list request :=
  POST_games "d" ::
  (POST_moves "d" ∘ move <$> [0; 1; 2; 4; 3; 5; 7; 6; 8]%Z).

(** * The rest of the module *)

(** [health_check]: the JSON object [{"message": "Healthy"}] as its list of
    key-value pairs. *)
Definition health_check : M (list (string * string)) :=
  ret [("message", "Healthy")].

(** The identifier a request is addressed to. *)
Definition target (r : request) : string :=
  match r with
  | POST_games uuid => uuid
  | GET_game gameId => gameId
  | POST_moves gameId _ => gameId
  end.

(** What the field descriptions of [GameState] promise: nine cells, each
    '', 'X' or 'O'; a next player 'X' or 'O'; one of the four statuses. *)
Definition documented_state (st : GameState) : Prop :=
  length (state_board st) = 9 ∧ Forall is_mark (state_board st) ∧
  is_player (nextPlayer st) ∧
  (state_status st = "IN_PROGRESS" ∨ terminal (state_status st)).

(** The status agrees with the board, a finished game keeps the player who
    moved last, and only that player can own a completed line. *)
Definition status_inv (G : _Game) : Prop :=
  (∃ w, _check_winner (board G) = Ok w ∧ status G = status_of w (board G)) ∧
  (terminal (status G) →
   next_player G = "X" ↔ count_mark "X" (board G) = S (count_mark "O" (board G))) ∧
  (∀ m, wins (board G) m → m = next_player G).

Definition drawn_store : Store := run drawn initial_store.

Definition game_d : _Game :=
  {| board := ["X"; "O"; "X"; "X"; "O"; "O"; "O"; "X"; "X"];
     next_player := "X"; status := "DRAW" |}.

(** * Properties *)

(** ** Lists and the store *)

Lemma getitem_lookup {A} (l : list A) (i : Z) (x : A) :
  (0 ≤ i)%Z → l !! Z.to_nat i = Some x → getitem l i = Ok x.
Proof.
  intros Hi Hx. unfold getitem, list_index.
  apply lookup_lt_Some in Hx as Hlt.
  rewrite bool_decide_eq_true_2 by lia.
  simpl. by rewrite Hx.
Qed.

Lemma getitem_in_range {A} (l : list A) (i : Z) :
  (0 ≤ i < Z.of_nat (length l))%Z →
  ∃ x, l !! Z.to_nat i = Some x ∧ getitem l i = Ok x.
Proof.
  intros Hi. destruct (lookup_lt_is_Some_2 l (Z.to_nat i)) as [x Hx]; [lia|].
  exists x. split; [done|]. apply getitem_lookup; [lia|done].
Qed.

Lemma setitem_in_range {A} (l : list A) (i : Z) (x : A) :
  (0 ≤ i < Z.of_nat (length l))%Z →
  setitem l i x = Ok (<[Z.to_nat i := x]> l).
Proof.
  intros Hi. unfold setitem, list_index.
  by rewrite bool_decide_eq_true_2 by lia.
Qed.

Lemma store_set_lookup_eq (s : Store) (g : addr) (v : _Game) :
  g < length (objects s) → objects (store_set s g v) !! g = Some v.
Proof. intros Hg. simpl. by apply list_lookup_insert_eq. Qed.

Lemma store_set_lookup_ne (s : Store) (g g' : addr) (v : _Game) :
  g ≠ g' → objects (store_set s g v) !! g' = objects s !! g'.
Proof. intros Hg. simpl. by apply list_lookup_insert_ne. Qed.

Lemma store_set_twice (s : Store) (g : addr) (v v' : _Game) :
  store_set (store_set s g v) g v' = store_set s g v'.
Proof. unfold store_set. simpl. by rewrite list_insert_insert_eq. Qed.

Lemma deref_lookup (s : Store) (g : addr) (v : _Game) :
  objects s !! g = Some v → objects s !!! g = v.
Proof. apply list_lookup_total_correct. Qed.

(** ** The evaluator *)

Lemma winning_lines_in_range : Forall (line_in_range 9) winning_lines.
Proof. unfold winning_lines, line_in_range. repeat constructor; simpl; lia. Qed.

Lemma line_test_in_range (b : list string) (i j k : Z) :
  line_in_range (length b) (i, j, k) →
  ∃ x, b !! Z.to_nat i = Some x ∧ getitem b i = Ok x ∧
       line_test b i j k = Ok (bool_decide (line_wins b x (i, j, k))).
Proof.
  intros (Hi & Hj & Hk). simpl in *.
  destruct (getitem_in_range b i Hi) as (x & Hx & Gx).
  destruct (getitem_in_range b j Hj) as (y & Hy & Gy).
  destruct (getitem_in_range b k Hk) as (z & Hz & Gz).
  exists x. split_and!; [done..|].
  unfold line_test, truthy. rewrite Gx, Gy.
  destruct (decide (line_wins b x (i, j, k))) as [Hw|Hw].
  - rewrite (bool_decide_eq_true_2 _ Hw).
    destruct Hw as (Hne & _ & Hy' & Hz'). simpl in *. simplify_eq.
    rewrite Gz. by rewrite !bool_decide_eq_true_2.
  - rewrite (bool_decide_eq_false_2 _ Hw).
    repeat case_bool_decide; try done. subst. rewrite Gz.
    case_bool_decide; [|done]. subst. destruct Hw. by split_and!.
Qed.

(** [_check_winner_loop] returns the mark of the first completed line of
    [lines], and [None] when no line is completed. *)
Lemma _check_winner_loop_first (b : list string) (lines : list (Z * Z * Z)) :
  Forall (line_in_range (length b)) lines →
  ∃ w, _check_winner_loop b lines = Ok w ∧
       match w with
       | Some m => ∃ pre l post, lines = pre ++ l :: post ∧ line_wins b m l ∧
                     ∀ l' m', l' ∈ pre → ¬ line_wins b m' l'
       | None => ∀ l' m', l' ∈ lines → ¬ line_wins b m' l'
       end.
Proof.
  induction 1 as [|[[i j] k] lines Hl _ IH].
  - exists None. split; [done|]. intros l' m' Hin. by apply elem_of_nil in Hin.
  - destruct (line_test_in_range b i j k Hl) as (x & Hx & Gx & Ht).
    simpl. rewrite Ht. case_bool_decide as Hw.
    + rewrite Gx. exists (Some x). split; [done|].
      exists [], (i, j, k), lines. split_and!; [done..|].
      intros l' m' Hin. by apply elem_of_nil in Hin.
    + destruct IH as (w & -> & Hspec). exists w. split; [done|].
      assert (∀ m', ¬ line_wins b m' (i, j, k)) as Hno.
      { intros m' Hm'. apply Hw. destruct Hm' as (? & Hm' & ?).
        simpl in Hm'. rewrite Hx in Hm'. by simplify_eq. }
      destruct w as [m|].
      * destruct Hspec as (pre & l & post & -> & Hl' & Hpre).
        exists ((i, j, k) :: pre), l, post. split_and!; [done..|].
        intros l' m' [->|Hin]%elem_of_cons; [apply Hno|by apply Hpre].
      * intros l' m' [->|Hin]%elem_of_cons; [apply Hno|by apply Hspec].
Qed.

Lemma _check_winner_total (b : list string) :
  length b = 9 → ∃ w, _check_winner b = Ok w.
Proof.
  intros Hb. destruct (_check_winner_loop_first b winning_lines) as (w & Hw & _).
  - rewrite Hb. apply winning_lines_in_range.
  - by exists w.
Qed.

Lemma _update_status_run (s : Store) (g : addr) (G : _Game) :
  objects s !! g = Some G → length (board G) = 9 →
  ∃ w, _check_winner (board G) = Ok w ∧
       _update_status g s = (Ok tt, store_set s g (with_status G (status_of w (board G)))).
Proof.
  intros HG Hb. destruct (_check_winner_total _ Hb) as [w Hw].
  exists w. split; [done|].
  unfold _update_status, get_board, set_status, deref, bind, ret, lift, status_of.
  rewrite (deref_lookup _ _ _ HG), Hw.
  repeat case_bool_decide; rewrite ?(deref_lookup _ _ _ HG); try done.
  by destruct (forallb in_X_O (board G)); rewrite (deref_lookup _ _ _ HG).
Qed.

(** ** The move handler, path by path *)

Section make_move_paths.
Context (s : Store) (payload : MoveRequest) (gameId : string).

Lemma make_move_not_found :
  _GAMES s !! gameId = None →
  make_move payload gameId s = (Raise GameNotFound, s).
Proof. intros Hid. unfold make_move, _GAMES_get, bind. by rewrite Hid. Qed.

Context (g : addr) (G : _Game).
Context (Hid : _GAMES s !! gameId = Some g) (HG : objects s !! g = Some G).

Lemma make_move_finished :
  status G ≠ "IN_PROGRESS" →
  make_move payload gameId s = (Raise GameFinished, s).
Proof using Hid HG.
  intros Hst. unfold make_move, _GAMES_get, get_status, deref, bind, ret.
  rewrite Hid, (deref_lookup _ _ _ HG). by rewrite bool_decide_eq_true_2.
Qed.

Lemma make_move_invalid_position :
  status G = "IN_PROGRESS" → ¬ (0 ≤ position payload ≤ 8)%Z →
  make_move payload gameId s = (Raise InvalidPosition, s).
Proof using Hid HG.
  intros Hst Hpos. unfold make_move, _GAMES_get, get_status, deref, bind, ret.
  rewrite Hid, (deref_lookup _ _ _ HG). rewrite bool_decide_eq_false_2 by (by intros ?).
  by repeat case_bool_decide; try lia.
Qed.

Lemma make_move_occupied (cell : string) :
  status G = "IN_PROGRESS" → (0 ≤ position payload ≤ 8)%Z →
  board G !! Z.to_nat (position payload) = Some cell → in_X_O cell = true →
  make_move payload gameId s = (Raise CellOccupied, s).
Proof using Hid HG.
  intros Hst Hpos Hcell Hocc.
  unfold make_move, _GAMES_get, get_status, board_getitem, get_board, deref,
    bind, ret, lift.
  rewrite Hid, (deref_lookup _ _ _ HG). rewrite bool_decide_eq_false_2 by (by intros ?).
  rewrite !bool_decide_eq_true_2 by lia. simpl.
  rewrite (deref_lookup _ _ _ HG).
  rewrite (getitem_lookup _ _ _ (proj1 Hpos) Hcell). by rewrite Hocc.
Qed.

Lemma make_move_ok (cell : string) :
  length (board G) = 9 →
  status G = "IN_PROGRESS" → (0 ≤ position payload ≤ 8)%Z →
  board G !! Z.to_nat (position payload) = Some cell → in_X_O cell = false →
  ∃ w, _check_winner (<[Z.to_nat (position payload) := next_player G]> (board G)) = Ok w ∧
       make_move payload gameId s
         = (Ok (state_of (moved payload G w)), store_set s g (moved payload G w)).
Proof using Hid HG.
  intros Hlen Hst Hpos Hcell Hfree.
  apply lookup_lt_Some in HG as Hg.
  set (G1 := with_board G (<[Z.to_nat (position payload) := next_player G]> (board G))).
  set (s1 := store_set s g G1).
  destruct (_update_status_run s1 g G1) as (w & Hw & Hup).
  { by apply store_set_lookup_eq. }
  { simpl. by rewrite length_insert. }
  exists w. split; [done|].
  unfold make_move, _GAMES_get, get_status, get_next_player, board_getitem,
    board_setitem, get_board, set_next_player, to_state, deref, bind, ret, lift.
  rewrite Hid, (deref_lookup _ _ _ HG). rewrite bool_decide_eq_false_2 by (by intros ?).
  rewrite !bool_decide_eq_true_2 by lia. simpl.
  rewrite (deref_lookup _ _ _ HG).
  rewrite (getitem_lookup _ _ _ (proj1 Hpos) Hcell), Hfree.
  rewrite (deref_lookup _ _ _ HG).
  rewrite setitem_in_range by lia. fold G1 s1. rewrite Hup.
  subst s1. rewrite store_set_twice.
  set (G2 := with_status G1 (status_of w (board G1))).
  assert (∀ v, objects (store_set s g v) !!! g = v) as Hread.
  { intros v. by apply deref_lookup, store_set_lookup_eq. }
  rewrite Hread. unfold moved. fold (board G1). simpl (status G2).
  case_bool_decide as Hst'.
  - by rewrite Hread, store_set_twice, Hread.
  - by rewrite Hread.
Qed.
End make_move_paths.

(** ** Which exceptions can be raised *)

Lemma MoveRequest_valid_bounds (payload : MoveRequest) :
  MoveRequest_valid payload = true ↔ (0 ≤ position payload ≤ 8)%Z.
Proof.
  unfold MoveRequest_valid. rewrite andb_true_iff, !bool_decide_eq_true. lia.
Qed.

Lemma getitem_raises {A} (l : list A) (i : Z) (e : exn) :
  getitem l i = Raise e → e = IndexError.
Proof. unfold getitem. case_match; naive_solver. Qed.

Lemma setitem_raises {A} (l : list A) (i : Z) (x : A) (e : exn) :
  setitem l i x = Raise e → e = IndexError.
Proof. unfold setitem. case_match; naive_solver. Qed.

Lemma line_test_raises (b : list string) (i j k : Z) (e : exn) :
  line_test b i j k = Raise e → e = IndexError.
Proof.
  unfold line_test. intros H.
  repeat (case_match; simplify_eq); eauto using getitem_raises.
Qed.

Lemma _check_winner_raises (b : list string) (e : exn) :
  _check_winner b = Raise e → e = IndexError.
Proof.
  unfold _check_winner. induction winning_lines as [|[[i j] k] lines IH]; [done|].
  simpl. intros H.
  repeat (case_match; simplify_eq); eauto using getitem_raises, line_test_raises.
Qed.

(** [_update_status] either assigns a status or raises [IndexError] and
    leaves the store as it found it. *)
Lemma _update_status_outcome (g : addr) (s : Store) :
  (∃ v, _update_status g s = (Ok tt, store_set s g (with_status (objects s !!! g) v))) ∨
  _update_status g s = (Raise IndexError, s).
Proof.
  unfold _update_status, get_board, set_status, deref, bind, ret, lift.
  destruct (_check_winner (board (objects s !!! g))) as [w|e] eqn:Hw.
  - left. repeat case_match; eauto.
  - right. by rewrite (_check_winner_raises _ _ Hw).
Qed.

(** A move that raises one of the four error kinds has not touched the
    store; any other raise is an [IndexError]. *)
Lemma make_move_raises (s s' : Store) (payload : MoveRequest) (gameId : string) (e : exn) :
  make_move payload gameId s = (Raise e, s') →
  ((is_error_kind e ∧ s' = s) ∨ e = IndexError) ∧
  (e = GameNotFound → _GAMES s !! gameId = None).
Proof.
  unfold make_move, _GAMES_get, get_status, get_next_player, board_getitem,
    board_setitem, get_board, set_next_player, to_state, deref, bind, ret, lift,
    raise, is_error_kind, GameNotFound, GameFinished, InvalidPosition, CellOccupied.
  intros H.
  destruct (_GAMES s !! gameId) as [g|]; [|naive_solver].
  case_bool_decide; [naive_solver|].
  destruct (negb _); [naive_solver|].
  destruct (getitem _ _) as [cell|e'] eqn:Hget;
    [|apply getitem_raises in Hget; naive_solver].
  destruct (in_X_O cell); [naive_solver|].
  destruct (setitem _ _ _) as [b'|e'] eqn:Hset;
    [|apply setitem_raises in Hset; naive_solver].
  match type of H with context [_update_status g ?s1] =>
    destruct (_update_status_outcome g s1) as [[v Hup]| Hup]; rewrite Hup in H
  end; [|naive_solver].
  by case_bool_decide.
Qed.

(** ** Well-formed games *)

Lemma in_X_O_mark (c : string) : is_mark c → in_X_O c = bool_decide (c ≠ "").
Proof. by intros [->| [->| ->]]. Qed.

Lemma is_board_lookup (b : list string) (i : Z) :
  is_board b → (0 ≤ i ≤ 8)%Z → ∃ c, b !! Z.to_nat i = Some c ∧ is_mark c.
Proof.
  intros [Hlen Hmarks] Hi.
  destruct (lookup_lt_is_Some_2 b (Z.to_nat i)) as [c Hc]; [lia|].
  exists c. split; [done|]. by eapply Forall_lookup_1.
Qed.

(** Every way a move on a stored game with a nine-cell board can go. *)
Lemma make_move_cases (s : Store) (payload : MoveRequest) (gameId : string)
    (g : addr) (G : _Game) :
  _GAMES s !! gameId = Some g → objects s !! g = Some G → length (board G) = 9 →
  (∃ e, is_error_kind e ∧ e ≠ GameNotFound ∧
        make_move payload gameId s = (Raise e, s)) ∨
  (status G = "IN_PROGRESS" ∧ (0 ≤ position payload ≤ 8)%Z ∧
   ∃ cell w,
     board G !! Z.to_nat (position payload) = Some cell ∧ in_X_O cell = false ∧
     _check_winner (<[Z.to_nat (position payload) := next_player G]> (board G)) = Ok w ∧
     make_move payload gameId s
       = (Ok (state_of (moved payload G w)), store_set s g (moved payload G w))).
Proof.
  intros Hid HG Hlen. unfold is_error_kind.
  destruct (decide (status G = "IN_PROGRESS")) as [Hst|Hst]; last first.
  { left. exists GameFinished. split_and!; [eauto|done|].
    by eapply make_move_finished. }
  destruct (decide (0 ≤ position payload ≤ 8)%Z) as [Hpos|Hpos]; last first.
  { left. exists InvalidPosition. split_and!; [eauto|done|].
    by eapply make_move_invalid_position. }
  destruct (lookup_lt_is_Some_2 (board G) (Z.to_nat (position payload)))
    as [cell Hcell]; [lia|].
  destruct (in_X_O cell) eqn:Hocc.
  { left. exists CellOccupied. split_and!; [eauto 6|done|].
    by eapply make_move_occupied. }
  right. do 2 (split; [done|]).
  destruct (make_move_ok s payload gameId g G Hid HG cell) as (w & Hw & Hrun);
    [done..|].
  by exists cell, w.
Qed.

(** ** The move handler *)

(** C1.  A move on a game in progress, at a position in [0,8] whose cell is
    empty, succeeds: the cell at the position receives the game's
    [next_player] and every other cell keeps its mark; the status is the one
    [_update_status] computes for the new board; [next_player] is flipped
    (X to O, O to X) exactly when that status is still in progress, and kept
    otherwise; the state returned is the whole updated game. *)
Theorem make_move_success (s : Store) (payload : MoveRequest) (gameId : string)
    (g : addr) (G : _Game) :
  _GAMES s !! gameId = Some g → objects s !! g = Some G →
  is_board (board G) → is_player (next_player G) →
  status G = "IN_PROGRESS" → (0 ≤ position payload ≤ 8)%Z →
  board G !! Z.to_nat (position payload) = Some "" →
  ∃ G',
    make_move payload gameId s = (Ok (state_of G'), store_set s g G') ∧
    state_of G' = {| state_board := board G'; nextPlayer := next_player G';
                     state_status := status G' |} ∧
    board G' !! Z.to_nat (position payload) = Some (next_player G) ∧
    (∀ i, i ≠ Z.to_nat (position payload) → board G' !! i = board G !! i) ∧
    length (board G') = 9 ∧
    _update_status g (store_set s g (with_board G (board G')))
      = (Ok tt, store_set s g (with_status (with_board G (board G')) (status G'))) ∧
    (status G' = "IN_PROGRESS" →
       (next_player G = "X" ∧ next_player G' = "O") ∨
       (next_player G = "O" ∧ next_player G' = "X")) ∧
    (status G' ≠ "IN_PROGRESS" → next_player G' = next_player G).
Proof.
  intros Hid HG [Hlen Hmarks] Hnp Hst Hpos Hcell.
  destruct (make_move_ok s payload gameId g G Hid HG "") as (w & Hw & Hrun);
    [done..|].
  apply lookup_lt_Some in HG as Hg.
  exists (moved payload G w). split_and!; [exact Hrun|reflexivity|..].
  - simpl. apply list_lookup_insert_eq. lia.
  - intros i Hi. simpl. by apply list_lookup_insert_ne.
  - simpl. by rewrite length_insert.
  - set (b' := board (moved payload G w)).
    destruct (_update_status_run (store_set s g (with_board G b')) g (with_board G b'))
      as (w' & Hw' & Hup).
    { by apply store_set_lookup_eq. }
    { subst b'. simpl. by rewrite length_insert. }
    rewrite Hup, store_set_twice. subst b'. simpl in Hw'. rewrite Hw in Hw'.
    by simplify_eq.
  - simpl. intros Hst'. rewrite bool_decide_eq_true_2 by done.
    destruct Hnp as [->| ->]; [by left|by right].
  - simpl. intros Hst'. by rewrite bool_decide_eq_false_2.
Qed.

(** C2.  On a stored game the checks of a move come in a fixed order and
    the first that fails decides the error: a status other than in progress
    gives [GameFinished]; otherwise a position outside [0,8] gives
    [InvalidPosition]; otherwise a cell that is not empty gives
    [CellOccupied]; otherwise the move succeeds. *)
Theorem make_move_check_order (s : Store) (payload : MoveRequest) (gameId : string)
    (g : addr) (G : _Game) :
  _GAMES s !! gameId = Some g → objects s !! g = Some G → is_board (board G) →
  (status G ≠ "IN_PROGRESS" →
     make_move payload gameId s = (Raise GameFinished, s)) ∧
  (status G = "IN_PROGRESS" → ¬ (0 ≤ position payload ≤ 8)%Z →
     make_move payload gameId s = (Raise InvalidPosition, s)) ∧
  (status G = "IN_PROGRESS" → (0 ≤ position payload ≤ 8)%Z →
     board G !! Z.to_nat (position payload) ≠ Some "" →
     make_move payload gameId s = (Raise CellOccupied, s)) ∧
  (status G = "IN_PROGRESS" → (0 ≤ position payload ≤ 8)%Z →
     board G !! Z.to_nat (position payload) = Some "" →
     ∃ st s', make_move payload gameId s = (Ok st, s')).
Proof.
  intros Hid HG HB. split_and!.
  - by eapply make_move_finished.
  - by eapply make_move_invalid_position.
  - intros Hst Hpos Hcell.
    destruct (is_board_lookup _ _ HB Hpos) as (c & Hc & Hm).
    eapply make_move_occupied; [done..|].
    rewrite (in_X_O_mark _ Hm). apply bool_decide_eq_true_2. congruence.
  - intros Hst Hpos Hcell. destruct HB as [Hlen _].
    destruct (make_move_ok s payload gameId g G Hid HG "") as (w & _ & Hrun);
      [done..|].
    eauto.
Qed.

(** C3.  A move that fails with one of the four error kinds leaves the
    store, and with it the board, the next player and the status of every
    game, exactly as it was; and on a game with a nine-cell board a move
    cannot fail in any other way. *)
Theorem make_move_failure_no_mutation (s s' : Store) (payload : MoveRequest)
    (gameId : string) (e : exn) :
  make_move payload gameId s = (Raise e, s') →
  (is_error_kind e → s' = s) ∧
  ((∀ g G, _GAMES s !! gameId = Some g → objects s !! g = Some G →
           length (board G) = 9) →
   (∀ g, _GAMES s !! gameId = Some g → g < length (objects s)) →
   is_error_kind e ∧ s' = s).
Proof.
  intros Hrun. split.
  - intros He. destruct (make_move_raises _ _ _ _ _ Hrun) as [[[_ ->]| ->] _]; [done|].
    by destruct He as [?|[?|[?|?]]].
  - intros Hlen Halloc.
    destruct (_GAMES s !! gameId) as [g|] eqn:Hid.
    + destruct (lookup_lt_is_Some_2 (objects s) g) as [G HG]; [by apply Halloc|].
      destruct (make_move_cases s payload gameId g G) as [(e' & He' & _ & Hr)|Hok];
        [by eauto..| |].
      * rewrite Hr in Hrun. by simplify_eq.
      * destruct Hok as (_ & _ & cell & w & _ & _ & _ & Hr).
        rewrite Hr in Hrun. by simplify_eq.
    + rewrite make_move_not_found in Hrun by done. simplify_eq.
      split; [by left|done].
Qed.

(** ** Creation and lookup *)

(** C6.  [create_game] always succeeds; the game it stores has a board of
    nine empty cells, X to play and the status in progress, and that is the
    state a fetch of the new identifier returns. *)
Theorem create_game_fresh (s : Store) (uuid : string) :
  _Game__init__ = {| board := [""; ""; ""; ""; ""; ""; ""; ""; ""];
                     next_player := "X"; status := "IN_PROGRESS" |} ∧
  ∃ s' g,
    create_game uuid s = (Ok {| gameId := uuid |}, s') ∧
    _GAMES s' !! uuid = Some g ∧
    objects s' !! g = Some _Game__init__ ∧
    get_game_state uuid s' = (Ok (state_of _Game__init__), s').
Proof.
  split; [done|].
  eexists _, (length (objects s)). split; [reflexivity|].
  assert ((objects s ++ [_Game__init__]) !! length (objects s) = Some _Game__init__)
    as Hnew by (by rewrite lookup_app_r, Nat.sub_diag).
  split_and!; simpl.
  - apply lookup_insert_eq.
  - done.
  - unfold get_game_state, _GAMES_get, to_state, deref, bind, ret. simpl.
    rewrite lookup_insert_eq. by rewrite (list_lookup_total_correct _ _ _ Hnew).
Qed.

(** C8.  For an identifier that [_GAMES] does not hold, fetching the state
    and making a move both fail with [GameNotFound], whatever else the store
    holds; for an identifier it holds, the fetch returns the state of the
    game and a move does not fail with [GameNotFound]. *)
Theorem lookup_game_not_found (s : Store) (gameId : string) (payload : MoveRequest) :
  match _GAMES s !! gameId with
  | None =>
      get_game_state gameId s = (Raise GameNotFound, s) ∧
      make_move payload gameId s = (Raise GameNotFound, s)
  | Some g =>
      get_game_state gameId s = (Ok (state_of (objects s !!! g)), s) ∧
      (make_move payload gameId s).1 ≠ Raise GameNotFound
  end.
Proof.
  destruct (_GAMES s !! gameId) as [g|] eqn:Hid.
  - split.
    + unfold get_game_state, _GAMES_get, bind. by rewrite Hid.
    + destruct (make_move payload gameId s) as [[st|e] s'] eqn:Hrun; [done|].
      simpl. intros [= ->].
      by destruct (make_move_raises _ _ _ _ _ Hrun) as [_ Hnone]; rewrite Hnone in Hid.
  - split.
    + unfold get_game_state, _GAMES_get, bind. by rewrite Hid.
    + by apply make_move_not_found.
Qed.

(** ** The evaluator on boards of marks *)

Lemma line_wins_mark (b : list string) (m : string) (l : Z * Z * Z) :
  Forall is_mark b → line_wins b m l → m = "X" ∨ m = "O".
Proof.
  intros Hb (Hne & Hm & _).
  destruct (Forall_lookup_1 _ _ _ _ Hb Hm) as [?|?]; naive_solver.
Qed.

Lemma first_completed_wins (b : list string) (m : string) :
  first_completed b m → wins b m.
Proof.
  intros (pre & l & post & Heq & Hl & _). exists l. split; [|done].
  rewrite Heq. set_solver.
Qed.

Lemma forallb_in_X_O (b : list string) :
  Forall is_mark b → forallb in_X_O b = true ↔ Forall (λ c, c ≠ "") b.
Proof.
  induction 1 as [|c b Hc _ IH]; simpl.
  - split; [constructor|done].
  - rewrite andb_true_iff, IH, Forall_cons, (in_X_O_mark _ Hc).
    by rewrite bool_decide_eq_true.
Qed.

(** What [_check_winner] finds on a board of marks. *)
Lemma _check_winner_marks (b : list string) :
  is_board b →
  ∃ w, _check_winner b = Ok w ∧
       match w with
       | Some m => (m = "X" ∨ m = "O") ∧ first_completed b m
       | None => ∀ m, ¬ wins b m
       end.
Proof.
  intros [Hlen Hmarks].
  destruct (_check_winner_loop_first b winning_lines) as (w & Hw & Hspec).
  { rewrite Hlen. apply winning_lines_in_range. }
  exists w. split; [done|]. destruct w as [m|].
  - destruct Hspec as (pre & l & post & Heq & Hl & Hpre).
    split; [by eapply line_wins_mark|]. by exists pre, l, post.
  - intros m (l & Hin & Hl). by eapply Hspec.
Qed.

(** C4.  The lines tried are exactly the three rows, the three columns and
    the two diagonals, as fixed index triples.  On a board of nine marks
    [_update_status] always assigns a status: when some line is completed
    by a mark it is X_WON or O_WON, for a mark that completes a line; when no
    line is completed and no cell is empty it is DRAW; otherwise it is
    IN_PROGRESS. *)
Theorem evaluator_status (s : Store) (g : addr) (G : _Game) :
  objects s !! g = Some G → is_board (board G) →
  winning_lines = rows ++ columns ++ diagonals ∧
  ∃ st,
    _update_status g s = (Ok tt, store_set s g (with_status G st)) ∧
    ((∃ m, wins (board G) m) →
       (st = "X_WON" ∧ wins (board G) "X") ∨ (st = "O_WON" ∧ wins (board G) "O")) ∧
    ((∀ m, ¬ wins (board G) m) → Forall (λ c, c ≠ "") (board G) → st = "DRAW") ∧
    ((∀ m, ¬ wins (board G) m) → ¬ Forall (λ c, c ≠ "") (board G) →
       st = "IN_PROGRESS").
Proof.
  intros HG HB. split; [done|].
  destruct (_update_status_run s g G HG (proj1 HB)) as (w & Hw & Hup).
  destruct (_check_winner_marks _ HB) as (w' & Hw' & Hspec).
  rewrite Hw in Hw'. simplify_eq.
  exists (status_of w' (board G)). split; [done|].
  unfold status_of. destruct w' as [m|].
  - destruct Hspec as [[->| ->] Hfirst%first_completed_wins]; simpl.
    + split_and!; [by left| |]; intros Hno; by destruct (Hno "X").
    + split_and!; [by right| |]; intros Hno; by destruct (Hno "O").
  - simpl. split_and!.
    + intros [m Hm]. by destruct (Hspec m).
    + intros _ Hfull. by rewrite (proj2 (forallb_in_X_O _ (proj2 HB)) Hfull).
    + intros _ Hfull. destruct (forallb in_X_O (board G)) eqn:Hall; [|done].
      by apply forallb_in_X_O in Hall; [|apply HB].
Qed.

(** C7, as the code has it.  On a board of nine marks with some completed
    line, [_update_status] assigns the status of the mark on the first
    completed line in the order of [winning_lines] (rows, then columns, then
    diagonals): X_WON when that line is all X and O_WON when it is all O,
    whichever other lines are completed. *)
Theorem evaluator_first_line (s : Store) (g : addr) (G : _Game) :
  objects s !! g = Some G → is_board (board G) → (∃ m, wins (board G) m) →
  ∃ m, first_completed (board G) m ∧ (m = "X" ∨ m = "O") ∧
       _update_status g s
         = (Ok tt, store_set s g
                     (with_status G (if bool_decide (m = "X") then "X_WON" else "O_WON"))).
Proof.
  intros HG HB [m0 Hm0].
  destruct (_update_status_run s g G HG (proj1 HB)) as (w & Hw & Hup).
  destruct (_check_winner_marks _ HB) as (w' & Hw' & Hspec).
  rewrite Hw in Hw'. simplify_eq.
  destruct w' as [m|]; [|by destruct (Hspec m0)].
  destruct Hspec as [Hm Hfirst]. exists m. split_and!; [done..|].
  rewrite Hup. by destruct Hm as [->| ->].
Qed.

(** ** Invariants of reachable stores *)

Lemma count_mark_cons (m c : string) (b : list string) :
  count_mark m (c :: b) = (if decide (c = m) then 1 else 0) + count_mark m b.
Proof. unfold count_mark. rewrite filter_cons. by case_decide. Qed.

Lemma count_mark_insert (m c v : string) (b : list string) (i : nat) :
  b !! i = Some c →
  count_mark m (<[i := v]> b) + (if decide (c = m) then 1 else 0)
  = count_mark m b + (if decide (v = m) then 1 else 0).
Proof.
  revert i. induction b as [|c' b IH]; intros [|i] Hc; simplify_eq/=.
  - rewrite !count_mark_cons. lia.
  - rewrite !count_mark_cons. specialize (IH i Hc). lia.
Qed.

Lemma terminal_not_in_progress (st : string) : terminal st → st ≠ "IN_PROGRESS".
Proof. by intros [->|[->| ->]]. Qed.

Lemma status_of_cases (w : option string) (b : list string) :
  status_of w b = "IN_PROGRESS" ∨ terminal (status_of w b).
Proof. unfold status_of, terminal. repeat case_match; eauto. Qed.

Lemma game_inv_init : game_inv _Game__init__.
Proof.
  unfold game_inv. split_and!.
  all: try (by left).
  all: try done.
  split; [done|]. repeat constructor; by left.
Qed.

Lemma game_inv_moved (payload : MoveRequest) (G : _Game) (w : option string) (cell : string) :
  game_inv G → status G = "IN_PROGRESS" →
  board G !! Z.to_nat (position payload) = Some cell → in_X_O cell = false →
  game_inv (moved payload G w).
Proof.
  intros ([Hlen Hmarks] & Hnp & _ & Hcount & Hturn) Hst Hcell Hfree.
  assert (cell = "") as ->.
  { destruct (Forall_lookup_1 _ _ _ _ Hmarks Hcell) as [?|[?|?]]; by subst. }
  pose proof (count_mark_insert "X" "" (next_player G) _ _ Hcell) as HX.
  pose proof (count_mark_insert "O" "" (next_player G) _ _ Hcell) as HO.
  specialize (Hturn Hst).
  unfold game_inv, moved. simpl.
  set (b' := <[Z.to_nat (position payload) := next_player G]> (board G)) in *.
  assert (is_board b') as HB'.
  { split; [by subst b'; rewrite length_insert|].
    apply Forall_insert; [done|]. destruct Hnp as [->| ->]; unfold is_mark; eauto. }
  split; [done|].
  destruct Hnp as [Hnp|Hnp]; rewrite Hnp in *; simpl in *.
  - assert (count_mark "X" (board G) = count_mark "O" (board G)) as Heq
      by (by apply Hturn).
    split_and!.
    + case_bool_decide; [by right|by left].
    + apply status_of_cases.
    + right. lia.
    + intros Hst'. rewrite bool_decide_eq_true_2 by done. split; [done|lia].
  - assert (count_mark "X" (board G) ≠ count_mark "O" (board G)) as Hne
      by (by intros Heq%Hturn).
    split_and!.
    + case_bool_decide; [by left|by right].
    + apply status_of_cases.
    + left. lia.
    + intros Hst'. rewrite bool_decide_eq_true_2 by done. split; [lia|done].
Qed.

Lemma get_game_state_store (s : Store) (gameId : string) :
  (get_game_state gameId s).2 = s.
Proof.
  unfold get_game_state, _GAMES_get, to_state, deref, bind, ret, raise.
  by destruct (_GAMES s !! gameId).
Qed.

Lemma step_effect_step (s : Store) (r : request) :
  store_inv s → step_effect s r (step r s).
Proof.
  intros (Halloc & Hinj & Hgames). destruct r as [uuid|gameId|gameId payload]; simpl.
  - apply effect_create.
  - rewrite get_game_state_store. by apply effect_none.
  - destruct (_GAMES s !! gameId) as [g|] eqn:Hid; last first.
    { rewrite make_move_not_found by done. by apply effect_none. }
    destruct (lookup_lt_is_Some_2 (objects s) g) as [G HG]; [by eapply Halloc|].
    pose proof (Forall_lookup_1 _ _ _ _ Hgames HG) as HGinv.
    destruct HGinv as ([Hlen Hmarks] & _).
    destruct (make_move_cases s payload gameId g G Hid HG Hlen)
      as [(e & _ & _ & ->)|(Hst & Hpos & cell & w & Hcell & Hfree & _ & Hrun)].
    { by apply effect_none. }
    rewrite Hrun. simpl. eapply effect_move; [done..| |done].
    destruct (Forall_lookup_1 _ _ _ _ Hmarks Hcell) as [?|[?|?]]; by subst.
Qed.

Lemma step_effect_inv (s s' : Store) (r : request) :
  store_inv s → step_effect s r s' → store_inv s'.
Proof.
  intros Hinv Heff. pose proof Hinv as (Halloc & Hinj & Hgames).
  destruct Heff as [| uuid | gameId payload g G w st Hid HG Hst Hcell Hrun]; [done|..].
  - split_and!; simpl.
    + intros id g. rewrite lookup_insert, length_app. simpl.
      case_decide; [intros [= <-]; lia|]. intros Hg%Halloc. lia.
    + intros id1 id2 g. rewrite !lookup_insert.
      repeat case_decide; subst; try done.
      * intros [= <-] Hg%Halloc. lia.
      * intros Hg%Halloc [= <-]. lia.
      * apply Hinj.
    + apply Forall_app. split; [done|]. apply Forall_singleton, game_inv_init.
  - split_and!; simpl.
    + intros id g'. rewrite length_insert. apply Halloc.
    + apply Hinj.
    + apply Forall_insert; [done|].
      eapply game_inv_moved; [by eapply Forall_lookup_1|done..].
Qed.

Lemma run_snoc (rs : list request) (r : request) (s : Store) :
  run (rs ++ [r]) s = step r (run rs s).
Proof. unfold run. by rewrite foldl_app. Qed.

Lemma store_inv_initial : store_inv initial_store.
Proof. split_and!; [done|done|constructor]. Qed.

Lemma reachable_inv (s : Store) : reachable s → store_inv s.
Proof.
  intros [rs ->]. induction rs as [|r rs IH] using rev_ind.
  - apply store_inv_initial.
  - rewrite run_snoc. eapply step_effect_inv; [done|]. by apply step_effect_step.
Qed.

Lemma reachable_run (rs : list request) (s : Store) :
  reachable s → reachable (run rs s).
Proof.
  intros [rs0 ->]. exists (rs0 ++ rs). unfold run. by rewrite foldl_app.
Qed.

(** A request leaves a stored object alone unless it is a successful move
    on an identifier of that object, which was then in progress. *)
Lemma step_effect_object (s s' : Store) (r : request) (g : addr) (G : _Game) :
  step_effect s r s' → objects s !! g = Some G →
  objects s' !! g = Some G ∨
  (status G = "IN_PROGRESS" ∧
   ∃ gameId payload st, r = POST_moves gameId payload ∧
     _GAMES s !! gameId = Some g ∧ make_move payload gameId s = (Ok st, s')).
Proof.
  intros Heff HG.
  destruct Heff as [| uuid | gameId payload g0 G0 w st Hid HG0 Hst Hcell Hrun].
  - by left.
  - left. simpl. rewrite lookup_app_l; [done|]. by eapply lookup_lt_Some.
  - destruct (decide (g0 = g)) as [->|Hne].
    + right. simplify_eq. split; [done|]. by exists gameId, payload, st.
    + left. by rewrite store_set_lookup_ne.
Qed.

(** ** Terminal games, isolation and the counting invariant *)

(** C5.  In a reachable store, a game whose status is terminal rejects
    every move with [GameFinished] and is never changed again by any
    sequence of requests; and the only request that changes a stored game
    at all is a successful move on it, made while it was in progress. *)
Theorem terminal_absorbing (s : Store) :
  reachable s →
  (∀ g G, objects s !! g = Some G → terminal (status G) →
     (∀ gameId payload, _GAMES s !! gameId = Some g →
        make_move payload gameId s = (Raise GameFinished, s)) ∧
     (∀ rs, objects (run rs s) !! g = Some G)) ∧
  (∀ r g G, objects s !! g = Some G → objects (step r s) !! g ≠ Some G →
     status G = "IN_PROGRESS" ∧
     ∃ gameId payload st, r = POST_moves gameId payload ∧
       _GAMES s !! gameId = Some g ∧
       make_move payload gameId s = (Ok st, step r s)).
Proof.
  intros Hreach. split.
  - intros g G HG Hterm. apply terminal_not_in_progress in Hterm as Hst. split.
    + intros gameId payload Hid. by eapply make_move_finished.
    + intros rs. induction rs as [|r rs IH] using rev_ind; [done|].
      rewrite run_snoc.
      pose proof (reachable_inv _ (reachable_run rs s Hreach)) as Hinv.
      destruct (step_effect_object _ _ r g G (step_effect_step _ r Hinv) IH)
        as [?|[? _]]; done.
  - intros r g G HG Hchanged.
    destruct (step_effect_object _ _ r g G
                (step_effect_step _ r (reachable_inv _ Hreach)) HG) as [?|?]; done.
Qed.

(** C9.  In a reachable store, a move on one identifier leaves the game of
    any other identifier as it was: that identifier still names the same
    object, the object is unchanged, and a fetch returns the same state. *)
Theorem games_isolated (s : Store) (idA idB : string) (payload : MoveRequest)
    (b : addr) :
  reachable s → idA ≠ idB → _GAMES s !! idB = Some b →
  _GAMES (make_move payload idA s).2 !! idB = Some b ∧
  objects (make_move payload idA s).2 !! b = objects s !! b ∧
  (get_game_state idB (make_move payload idA s).2).1 = (get_game_state idB s).1.
Proof.
  intros Hreach Hne HB.
  pose proof (reachable_inv _ Hreach) as Hinv.
  pose proof (step_effect_step s (POST_moves idA payload) Hinv) as Heff.
  simpl in Heff. set (s' := (make_move payload idA s).2) in *.
  assert (_GAMES s' = _GAMES s ∧ objects s' !! b = objects s !! b) as [Hreg Hobj].
  { clearbody s'.
    inversion Heff as [| | gameId p g G w st Hid HG Hst Hcell Hrun]; subst.
    - done.
    - split; [done|]. apply store_set_lookup_ne. intros ->.
      destruct Hinv as (_ & Hinj & _). by destruct Hne; eapply Hinj. }
  split_and!; [by rewrite Hreg|done|].
  unfold get_game_state, _GAMES_get, to_state, deref, bind, ret.
  rewrite Hreg, HB. simpl. by rewrite !list_lookup_total_alt, Hobj.
Qed.

(** C10.  Every game of a reachable store has only the marks "", X and O
    on its board and X or O as next player; the number of X marks minus the
    number of O marks is 0 or 1; and while the status is in progress, X is
    next exactly when the two numbers are equal. *)
Theorem reachable_game_invariant (s : Store) (g : addr) (G : _Game) :
  reachable s → objects s !! g = Some G →
  Forall is_mark (board G) ∧ is_player (next_player G) ∧
  (Z.of_nat (count_mark "X" (board G)) - Z.of_nat (count_mark "O" (board G)) = 0 ∨
   Z.of_nat (count_mark "X" (board G)) - Z.of_nat (count_mark "O" (board G)) = 1)%Z ∧
  (status G = "IN_PROGRESS" →
   next_player G = "X" ↔ count_mark "X" (board G) = count_mark "O" (board G)).
Proof.
  intros (_ & _ & Hgames)%reachable_inv HG.
  destruct (Forall_lookup_1 _ _ _ _ Hgames HG)
    as ([_ Hmarks] & Hnp & _ & Hcount & Hturn).
  split_and!; [done|done|lia|done].
Qed.

(** ** The worked runs *)

Example played_objects :
  objects played_store = [game_a; _Game__init__; game_c].
Proof. vm_compute. reflexivity. Qed.

Example drawn_state :
  (get_game_state "d" (run drawn initial_store)).1
  = Ok {| state_board := ["X"; "O"; "X"; "X"; "O"; "O"; "O"; "X"; "X"];
          nextPlayer := "X"; state_status := "DRAW" |}.
Proof. vm_compute. reflexivity. Qed.

Lemma reachable_played : reachable played_store.
Proof. by exists played. Defined.

Lemma is_board_init : is_board (board _Game__init__).
Proof. split; [reflexivity|]. repeat constructor; by left. Defined.

Lemma is_board_game_a : is_board (board game_a).
Proof.
  split; [reflexivity|].
  repeat constructor; solve [by left | by right; left | by right; right].
Defined.

Lemma is_board_two_lines : is_board (board two_lines).
Proof.
  split; [reflexivity|].
  repeat constructor; solve [by left | by right; left | by right; right].
Defined.

Lemma make_move_success_witness :
  ∃ G', make_move (move 4) "b" played_store
          = (Ok (state_of G'), store_set played_store 1 G') ∧
        board G' !! 4 = Some "X".
Proof.
  destruct (make_move_success played_store (move 4) "b" 1 _Game__init__)
    as (G' & Hrun & _ & Hcell & _).
  - vm_compute. reflexivity.
  - vm_compute. reflexivity.
  - apply is_board_init.
  - left. reflexivity.
  - reflexivity.
  - simpl. lia.
  - reflexivity.
  - exists G'. split; assumption.
Defined.

Lemma make_move_check_order_witness :
  make_move (move 0) "a" played_store = (Raise GameFinished, played_store) ∧
  make_move (move (-1)) "b" played_store = (Raise InvalidPosition, played_store) ∧
  make_move (move 9) "b" played_store = (Raise InvalidPosition, played_store).
Proof.
  split; [|split].
  - apply (make_move_check_order played_store (move 0) "a" 0 game_a).
    + vm_compute. reflexivity.
    + vm_compute. reflexivity.
    + apply is_board_game_a.
    + discriminate.
  - apply (make_move_check_order played_store (move (-1)) "b" 1 _Game__init__).
    + vm_compute. reflexivity.
    + vm_compute. reflexivity.
    + apply is_board_init.
    + reflexivity.
    + simpl. lia.
  - apply (make_move_check_order played_store (move 9) "b" 1 _Game__init__).
    + vm_compute. reflexivity.
    + vm_compute. reflexivity.
    + apply is_board_init.
    + reflexivity.
    + simpl. lia.
Defined.

Lemma make_move_failure_no_mutation_witness :
  (make_move (move 4) "c" played_store).2 = played_store.
Proof.
  destruct (make_move_failure_no_mutation played_store
              (make_move (move 4) "c" played_store).2 (move 4) "c" CellOccupied)
    as [Hsame _].
  - vm_compute. reflexivity.
  - apply Hsame. right. right. right. reflexivity.
Defined.

Lemma evaluator_status_witness :
  ∃ st, _update_status 0 played_store
          = (Ok tt, store_set played_store 0 (with_status game_a st)).
Proof.
  destruct (evaluator_status played_store 0 game_a) as (_ & st & Hrun & _).
  - vm_compute. reflexivity.
  - apply is_board_game_a.
  - exists st. assumption.
Defined.

Lemma wins_two_lines_O : wins (board two_lines) "O".
Proof.
  exists (0, 1, 2)%Z. split; [by left|].
  split; [discriminate|]. split; [|split]; reflexivity.
Defined.

Lemma wins_two_lines_X : wins (board two_lines) "X".
Proof.
  exists (3, 4, 5)%Z. split; [by right; left|].
  split; [discriminate|]. split; [|split]; reflexivity.
Defined.

Lemma evaluator_first_line_witness :
  ∃ m, first_completed (board two_lines) m ∧
       _update_status 0 two_lines_store
         = (Ok tt, store_set two_lines_store 0
                     (with_status two_lines
                        (if bool_decide (m = "X") then "X_WON" else "O_WON"))).
Proof.
  destruct (evaluator_first_line two_lines_store 0 two_lines)
    as (m & Hfirst & _ & Hrun).
  - reflexivity.
  - apply is_board_two_lines.
  - exists "O". apply wins_two_lines_O.
  - exists m. split; assumption.
Defined.

(** C7, as stated, fails: with O on the first row and X on the second, both
    marks have a completed line and the status assigned is O_WON. *)
Lemma evaluator_X_before_O_fails :
  is_board (board two_lines) ∧
  wins (board two_lines) "X" ∧ wins (board two_lines) "O" ∧
  _update_status 0 two_lines_store
    = (Ok tt, store_set two_lines_store 0 (with_status two_lines "O_WON")) ∧
  (get_game_state "t" (_update_status 0 two_lines_store).2).1
    ≠ Ok (state_of (with_status two_lines "X_WON")).
Proof.
  split_and!.
  - apply is_board_two_lines.
  - apply wins_two_lines_X.
  - apply wins_two_lines_O.
  - vm_compute. reflexivity.
  - vm_compute. discriminate.
Qed.

Lemma terminal_absorbing_witness :
  make_move (move 4) "a" played_store = (Raise GameFinished, played_store) ∧
  objects (run [POST_moves "a" (move 4); POST_games "a"; POST_moves "a" (move 4)]
             played_store) !! 0 = Some game_a.
Proof.
  destruct (terminal_absorbing played_store reachable_played) as [Hterm _].
  destruct (Hterm 0 game_a) as [Hmove Hrun].
  - vm_compute. reflexivity.
  - left. reflexivity.
  - split; [apply Hmove; vm_compute; reflexivity | apply Hrun].
Defined.

Lemma games_isolated_witness :
  _GAMES (make_move (move 4) "b" played_store).2 !! "c" = Some 2 ∧
  objects (make_move (move 4) "b" played_store).2 !! 2 = objects played_store !! 2 ∧
  (get_game_state "c" (make_move (move 4) "b" played_store).2).1
  = (get_game_state "c" played_store).1.
Proof.
  apply (games_isolated played_store "b" "c" (move 4) 2).
  - apply reachable_played.
  - discriminate.
  - vm_compute. reflexivity.
Defined.

Lemma reachable_game_invariant_witness :
  Forall is_mark (board game_a) ∧ is_player (next_player game_a) ∧
  (Z.of_nat (count_mark "X" (board game_a))
     - Z.of_nat (count_mark "O" (board game_a)) = 0 ∨
   Z.of_nat (count_mark "X" (board game_a))
     - Z.of_nat (count_mark "O" (board game_a)) = 1)%Z ∧
  (status game_a = "IN_PROGRESS" →
   next_player game_a = "X"
   ↔ count_mark "X" (board game_a) = count_mark "O" (board game_a)).
Proof.
  apply (reachable_game_invariant played_store 0 game_a).
  - apply reachable_played.
  - vm_compute. reflexivity.
Defined.

(** * Further properties of the module *)

(** ** The store under the handlers *)

Lemma store_set_id (s : Store) (g : addr) (v : _Game) :
  objects s !! g = Some v → store_set s g v = s.
Proof.
  intros Hv. destruct s as [m os]. unfold store_set. simpl in *.
  by rewrite list_insert_id.
Qed.

Lemma store_set_registry (s : Store) (g : addr) (v : _Game) :
  _GAMES (store_set s g v) = _GAMES s.
Proof. done. Qed.

(** [make_move] never touches the dictionary, whatever the store. *)
Lemma make_move_registry (s : Store) (payload : MoveRequest) (gameId : string) :
  _GAMES (make_move payload gameId s).2 = _GAMES s.
Proof.
  unfold make_move, _GAMES_get, get_status, get_next_player, board_getitem,
    board_setitem, get_board, set_next_player, to_state, deref, bind, ret, lift,
    raise.
  destruct (_GAMES s !! gameId) as [g|]; [|done].
  case_bool_decide; [done|].
  destruct (negb _); [done|].
  destruct (getitem _ _) as [cell|e']; [|done].
  destruct (in_X_O cell); [done|].
  destruct (setitem _ _ _) as [b'|e']; [|done].
  match goal with |- context [_update_status g ?s1] =>
    destruct (_update_status_outcome g s1) as [[v Hup]| Hup]; rewrite Hup
  end; [|done].
  by case_bool_decide.
Qed.

(** Every way a request can change a store that satisfies the invariant. *)
Lemma step_cases (s : Store) (r : request) :
  store_inv s →
  step r s = s ∨
  (∃ uuid, r = POST_games uuid ∧
     step r s = {| _GAMES := <[uuid := length (objects s)]> (_GAMES s);
                   objects := objects s ++ [_Game__init__] |}) ∨
  (∃ gameId payload g G w,
     r = POST_moves gameId payload ∧
     _GAMES s !! gameId = Some g ∧ objects s !! g = Some G ∧ game_inv G ∧
     status G = "IN_PROGRESS" ∧ (0 ≤ position payload ≤ 8)%Z ∧
     board G !! Z.to_nat (position payload) = Some "" ∧
     _check_winner (<[Z.to_nat (position payload) := next_player G]> (board G)) = Ok w ∧
     make_move payload gameId s
       = (Ok (state_of (moved payload G w)), store_set s g (moved payload G w)) ∧
     step r s = store_set s g (moved payload G w)).
Proof.
  intros (Halloc & Hinj & Hgames). destruct r as [uuid|gameId|gameId payload]; simpl.
  - right. left. by exists uuid.
  - left. apply get_game_state_store.
  - destruct (_GAMES s !! gameId) as [g|] eqn:Hid; last first.
    { left. by rewrite make_move_not_found. }
    destruct (lookup_lt_is_Some_2 (objects s) g) as [G HG]; [by eapply Halloc|].
    pose proof (Forall_lookup_1 _ _ _ _ Hgames HG) as HGinv.
    pose proof HGinv as ([Hlen Hmarks] & _).
    destruct (make_move_cases s payload gameId g G Hid HG Hlen)
      as [(e & _ & _ & ->)|(Hst & Hpos & cell & w & Hcell & Hfree & Hw & Hrun)].
    { by left. }
    right. right. exists gameId, payload, g, G, w.
    assert (cell = "") as ->.
    { destruct (Forall_lookup_1 _ _ _ _ Hmarks Hcell) as [?|[?|?]]; by subst. }
    rewrite Hrun. split_and!; (done || lia).
Qed.

(** Induction over the games of reachable stores: a property of the fresh
    game that every legal move preserves holds of every stored game. *)
Lemma reachable_games_ind (P : _Game → Prop) :
  P _Game__init__ →
  (∀ payload G w,
     game_inv G → P G → status G = "IN_PROGRESS" →
     (0 ≤ position payload ≤ 8)%Z →
     board G !! Z.to_nat (position payload) = Some "" →
     _check_winner (<[Z.to_nat (position payload) := next_player G]> (board G)) = Ok w →
     P (moved payload G w)) →
  ∀ s, reachable s → Forall P (objects s).
Proof.
  intros Hinit Hmove s [rs ->]. induction rs as [|r rs IH] using rev_ind.
  - constructor.
  - rewrite run_snoc.
    assert (store_inv (run rs initial_store)) as Hinv.
    { apply reachable_inv. by exists rs. }
    destruct (step_cases _ r Hinv)
      as [->|[(uuid & _ & ->)|(gameId & payload & g & G & w & _ & _ & HG & HGinv &
                               Hst & Hpos & Hcell & Hw & _ & ->)]].
    + done.
    + simpl. apply Forall_app. split; [done|]. by apply Forall_singleton.
    + simpl. apply Forall_insert; [done|].
      eapply Hmove; [done| |done..]. by eapply Forall_lookup_1.
Qed.

(** ** The status of reachable games *)

Lemma line_wins_insert_other (b : list string) (i : nat) (v m : string) (l : Z * Z * Z) :
  v ≠ m → line_wins (<[i := v]> b) m l → line_wins b m l.
Proof.
  intros Hv (Hne & H1 & H2 & H3). split; [done|].
  apply list_lookup_insert_Some in H1 as [(_ & ? & _)|[_ H1]]; [done|].
  apply list_lookup_insert_Some in H2 as [(_ & ? & _)|[_ H2]]; [done|].
  apply list_lookup_insert_Some in H3 as [(_ & ? & _)|[_ H3]]; [done|].
  done.
Qed.

Lemma wins_insert_other (b : list string) (i : nat) (v m : string) :
  v ≠ m → wins (<[i := v]> b) m → wins b m.
Proof.
  intros Hv (l & Hin & Hl). exists l. split; [done|].
  by eapply line_wins_insert_other.
Qed.

Lemma _check_winner_marks_of (b : list string) (w : option string) :
  is_board b → _check_winner b = Ok w →
  match w with
  | Some m => (m = "X" ∨ m = "O") ∧ first_completed b m
  | None => ∀ m, ¬ wins b m
  end.
Proof.
  intros HB Hw. destruct (_check_winner_marks b HB) as (w' & Hw' & Hspec).
  rewrite Hw in Hw'. by simplify_eq.
Qed.

Lemma status_of_in_progress (b : list string) (w : option string) :
  is_board b → _check_winner b = Ok w → status_of w b = "IN_PROGRESS" →
  (∀ m, ¬ wins b m) ∧ forallb in_X_O b = false.
Proof.
  intros HB Hw Hst. pose proof (_check_winner_marks_of b w HB Hw) as Hspec.
  unfold status_of in Hst. destruct w as [m|].
  - by destruct Hspec as [[->| ->] _].
  - split; [done|]. simpl in Hst. by destruct (forallb in_X_O b).
Qed.

Lemma status_of_won (b : list string) (w : option string) (m : string) :
  is_board b → _check_winner b = Ok w → wins b m →
  ∃ m', w = Some m' ∧ (m' = "X" ∨ m' = "O") ∧ wins b m' ∧
        status_of w b = (if bool_decide (m' = "X") then "X_WON" else "O_WON").
Proof.
  intros HB Hw Hm. pose proof (_check_winner_marks_of b w HB Hw) as Hspec.
  destruct w as [m'|]; [|by destruct (Hspec m)].
  destruct Hspec as [Hm' Hfirst%first_completed_wins].
  exists m'. split_and!; [done..|]. by destruct Hm' as [->| ->].
Qed.

Lemma status_inv_init : status_inv _Game__init__.
Proof.
  assert (_check_winner (board _Game__init__) = Ok None) as Hw by done.
  split_and!.
  - by exists None.
  - by intros [?|[?|?]].
  - intros m Hm.
    by destruct (_check_winner_marks_of _ _ (proj1 game_inv_init) Hw m).
Qed.

Lemma status_inv_moved (payload : MoveRequest) (G : _Game) (w : option string) :
  game_inv G → status_inv G → status G = "IN_PROGRESS" →
  (0 ≤ position payload ≤ 8)%Z →
  board G !! Z.to_nat (position payload) = Some "" →
  _check_winner (<[Z.to_nat (position payload) := next_player G]> (board G)) = Ok w →
  status_inv (moved payload G w).
Proof.
  intros HGinv ((w0 & Hw0 & Hst0) & _ & _) Hst Hpos Hcell Hw.
  pose proof (game_inv_moved payload G w "" HGinv Hst Hcell eq_refl) as (HB' & _).
  destruct HGinv as (HB & Hnp & _ & Hcount & Hturn). specialize (Hturn Hst).
  rewrite Hst in Hst0. symmetry in Hst0.
  destruct (status_of_in_progress _ _ HB Hw0 Hst0) as [Hnowin _].
  pose proof (count_mark_insert "X" "" (next_player G) _ _ Hcell) as HX.
  pose proof (count_mark_insert "O" "" (next_player G) _ _ Hcell) as HO.
  unfold status_inv, moved in *. simpl in *.
  set (b' := <[Z.to_nat (position payload) := next_player G]> (board G)) in *.
  split_and!.
  - by exists w.
  - intros Hterm%terminal_not_in_progress. rewrite bool_decide_eq_false_2 by done.
    destruct Hnp as [Hnp|Hnp]; rewrite Hnp in *; simpl in *.
    + assert (count_mark "X" (board G) = count_mark "O" (board G)) as Heq
        by (by apply Hturn).
      split; [lia|done].
    + assert (count_mark "X" (board G) ≠ count_mark "O" (board G)) as Hne
        by (by intros Heq%Hturn).
      split; [done|lia].
  - intros m Hm.
    assert (m = next_player G) as ->.
    { destruct (decide (next_player G = m)) as [|Hne]; [done|].
      destruct (Hnowin m). by eapply wins_insert_other. }
    destruct (status_of_won _ _ _ HB' Hw Hm) as (m' & _ & Hm' & _ & ->).
    by destruct Hm' as [->| ->].
Qed.

Lemma reachable_status_inv (s : Store) (g : addr) (G : _Game) :
  reachable s → objects s !! g = Some G → game_inv G ∧ status_inv G.
Proof.
  intros Hreach HG. split.
  - destruct (reachable_inv _ Hreach) as (_ & _ & Hgames).
    by eapply Forall_lookup_1.
  - eapply Forall_lookup_1; [|done].
    apply (reachable_games_ind status_inv); [apply status_inv_init| |done].
    intros. by eapply status_inv_moved.
Qed.

Lemma with_status_same (G : _Game) : with_status G (status G) = G.
Proof. by destruct G. Qed.

Lemma count_mark_total (b : list string) :
  Forall is_mark b →
  count_mark "" b + count_mark "X" b + count_mark "O" b = length b.
Proof.
  induction 1 as [|c b Hc _ IH]; [done|].
  rewrite !count_mark_cons. simpl.
  destruct Hc as [->|[->| ->]]; repeat case_decide; try done; lia.
Qed.

Lemma count_mark_empty_full (b : list string) :
  Forall is_mark b → forallb in_X_O b = true → count_mark "" b = 0.
Proof.
  induction 1 as [|c b Hc _ IH]; [done|].
  simpl. rewrite andb_true_iff, count_mark_cons. intros [Hocc Hall].
  rewrite (IH Hall). destruct Hc as [->|[->| ->]]; by repeat case_decide.
Qed.

(** X1.  The status of a stored game always agrees with its board:
    recomputing it changes nothing. *)
Theorem update_status_stable (s : Store) (g : addr) (G : _Game) :
  reachable s → objects s !! g = Some G → _update_status g s = (Ok tt, s).
Proof.
  intros Hreach HG.
  destruct (reachable_status_inv s g G Hreach HG)
    as ((HB & _) & (w & Hw & Hst) & _).
  destruct (_update_status_run s g G HG (proj1 HB)) as (w' & Hw' & ->).
  rewrite Hw in Hw'. simplify_eq. rewrite <- Hst, with_status_same.
  by rewrite store_set_id.
Qed.

(** X2.  What the status of a stored game says about its board: X_WON
    exactly when X has a completed line, O_WON exactly when O has one, never
    both; DRAW exactly when no line is completed and no cell is empty;
    IN_PROGRESS exactly when no line is completed and some cell is empty. *)
Theorem reachable_status_meaning (s : Store) (g : addr) (G : _Game) :
  reachable s → objects s !! g = Some G →
  (status G = "X_WON" ↔ wins (board G) "X") ∧
  (status G = "O_WON" ↔ wins (board G) "O") ∧
  ¬ (wins (board G) "X" ∧ wins (board G) "O") ∧
  (status G = "DRAW" ↔
     (∀ m, ¬ wins (board G) m) ∧ Forall (λ c, c ≠ "") (board G)) ∧
  (status G = "IN_PROGRESS" ↔
     (∀ m, ¬ wins (board G) m) ∧ ¬ Forall (λ c, c ≠ "") (board G)).
Proof.
  intros Hreach HG.
  destruct (reachable_status_inv s g G Hreach HG)
    as ((HB & Hnp & _) & (w & Hw & Hst) & _ & Hown).
  assert (¬ (wins (board G) "X" ∧ wins (board G) "O")) as Hone.
  { intros [HX%Hown HO%Hown]. congruence. }
  pose proof (_check_winner_marks_of _ _ HB Hw) as Hspec.
  pose proof (forallb_in_X_O _ (proj2 HB)) as Hfull.
  rewrite Hst. unfold status_of. destruct w as [m|].
  - destruct Hspec as [Hm Hfirst%first_completed_wins]. clear Hfull.
    assert (¬ ∀ m', ¬ wins (board G) m') as Hsome by (intros Hno; by eapply Hno).
    destruct Hm as [->| ->]; simpl.
    + split_and!; [done| |done| |]; split; try done; intros; tauto.
    + split_and!; [|done|done| |]; split; try done; intros; tauto.
  - simpl. destruct (forallb in_X_O (board G)) eqn:Hall.
    + assert (Forall (λ c, c ≠ "") (board G)) as Hf by by apply Hfull.
      clear Hfull.
      split_and!; [| |done| |]; split; try done; intros; try tauto.
      * by destruct (Hspec "X").
      * by destruct (Hspec "O").
    + assert (¬ Forall (λ c, c ≠ "") (board G)) as Hf.
      { intros Hf%Hfull. congruence. }
      clear Hfull.
      split_and!; [| |done| |]; split; try done; intros; try tauto.
      * by destruct (Hspec "X").
      * by destruct (Hspec "O").
Qed.

(** X3.  A finished game keeps the player who moved last as next player:
    after a win of X the next player is X and X has one mark more than O;
    after a win of O the next player is O and the marks are as many; a draw
    has five X and four O on a full board, with X as next player. *)
Theorem terminal_game_last_mover (s : Store) (g : addr) (G : _Game) :
  reachable s → objects s !! g = Some G →
  (status G = "X_WON" →
     next_player G = "X" ∧
     count_mark "X" (board G) = S (count_mark "O" (board G))) ∧
  (status G = "O_WON" →
     next_player G = "O" ∧
     count_mark "X" (board G) = count_mark "O" (board G)) ∧
  (status G = "DRAW" →
     next_player G = "X" ∧ count_mark "" (board G) = 0 ∧
     count_mark "X" (board G) = 5 ∧ count_mark "O" (board G) = 4).
Proof.
  intros Hreach HG.
  destruct (reachable_status_inv s g G Hreach HG)
    as ((HB & Hnp & _ & Hcount & _) & (w & Hw & Hst) & Hlast & Hown).
  pose proof (_check_winner_marks_of _ _ HB Hw) as Hspec.
  split_and!; intros Hs; rewrite Hs in Hst, Hlast.
  - assert (next_player G = "X") as HX.
    { symmetry. apply Hown. unfold status_of in Hst.
      destruct w as [m|]; [|by simpl in Hst; destruct (forallb _ _)].
      destruct Hspec as [[->| ->] Hfirst%first_completed_wins]; done. }
    split; [done|]. apply Hlast; [by left|done].
  - assert (next_player G = "O") as HO.
    { symmetry. apply Hown. unfold status_of in Hst.
      destruct w as [m|]; [|by simpl in Hst; destruct (forallb _ _)].
      destruct Hspec as [[->| ->] Hfirst%first_completed_wins]; done. }
    split; [done|]. destruct Hcount as [?|Hc]; [done|].
    apply Hlast in Hc; [congruence|by right; left].
  - assert (forallb in_X_O (board G) = true) as Hall.
    { unfold status_of in Hst. destruct w as [m|].
      - by destruct Hspec as [[->| ->] _].
      - simpl in Hst. by destruct (forallb _ _). }
    pose proof (count_mark_empty_full _ (proj2 HB) Hall) as Hempty.
    pose proof (count_mark_total _ (proj2 HB)) as Htotal.
    rewrite (proj1 HB), Hempty in Htotal.
    assert (count_mark "X" (board G) = S (count_mark "O" (board G))) as Hc by lia.
    split_and!; [|done|lia|lia]. apply Hlast; [by right; right|done].
Qed.

(** ** Moves on reachable games *)

Lemma forallb_false_lookup {A} (f : A → bool) (l : list A) :
  forallb f l = false → ∃ i x, l !! i = Some x ∧ f x = false.
Proof.
  induction l as [|y l IH]; [done|]. simpl.
  destruct (f y) eqn:Hy.
  - intros (i & x & Hx & Hfx)%IH. by exists (S i), x.
  - intros _. by exists 0, y.
Qed.

Lemma empty_of_free_mark (c : string) : is_mark c → in_X_O c = false → c = "".
Proof. by intros [->|[->| ->]]. Qed.

(** X4.  A stored game in progress always has a legal move: some position
    in [0,8] holds an empty cell, and a move there succeeds. *)
Theorem in_progress_has_move (s : Store) (gameId : string) (g : addr) (G : _Game) :
  reachable s → _GAMES s !! gameId = Some g → objects s !! g = Some G →
  status G = "IN_PROGRESS" →
  ∃ pos st s',
    (0 ≤ pos ≤ 8)%Z ∧ board G !! Z.to_nat pos = Some "" ∧
    make_move {| position := pos |} gameId s = (Ok st, s').
Proof.
  intros Hreach Hid HG Hst.
  destruct (reachable_status_inv s g G Hreach HG)
    as ((HB & _) & (w & Hw & Hst') & _).
  rewrite Hst in Hst'. symmetry in Hst'.
  destruct (status_of_in_progress _ _ HB Hw Hst') as [_ Hall].
  destruct (forallb_false_lookup _ _ Hall) as (i & c & Hc & Hfree).
  apply lookup_lt_Some in Hc as Hi. destruct HB as [Hlen Hmarks].
  assert (c = "") as ->
    by (apply empty_of_free_mark; [by eapply Forall_lookup_1|done]).
  destruct (make_move_ok s {| position := Z.of_nat i |} gameId g G Hid HG "")
    as (w' & _ & Hrun); simpl; rewrite ?Nat2Z.id; [done|done|lia|done|done|].
  exists (Z.of_nat i). eexists _, _. rewrite Nat2Z.id. split_and!; [lia|lia|done..].
Qed.

(** X5.  A successful move fills exactly one empty cell with the mark of
    the player whose turn it was: the game has one empty cell fewer, one
    more mark of that player, and as many marks of the other. *)
Theorem successful_move_fills_one_cell (s s' : Store) (payload : MoveRequest)
    (gameId : string) (st : GameState) :
  reachable s → make_move payload gameId s = (Ok st, s') →
  ∃ g G G',
    _GAMES s !! gameId = Some g ∧ objects s !! g = Some G ∧
    objects s' !! g = Some G' ∧ st = state_of G' ∧
    count_mark "" (board G') + 1 = count_mark "" (board G) ∧
    count_mark (next_player G) (board G') = count_mark (next_player G) (board G) + 1 ∧
    ∀ m, m ≠ "" → m ≠ next_player G →
         count_mark m (board G') = count_mark m (board G).
Proof.
  intros Hreach Hrun.
  destruct (reachable_inv _ Hreach) as (Halloc & _ & Hgames).
  destruct (_GAMES s !! gameId) as [g|] eqn:Hid;
    [|by rewrite make_move_not_found in Hrun].
  destruct (lookup_lt_is_Some_2 (objects s) g) as [G HG]; [by eapply Halloc|].
  destruct (Forall_lookup_1 _ _ _ _ Hgames HG) as ([Hlen Hmarks] & Hnp & _).
  destruct (make_move_cases s payload gameId g G Hid HG Hlen)
    as [(e & _ & _ & Hr)|(Hst & Hpos & cell & w & Hcell & Hfree & _ & Hr)];
    rewrite Hr in Hrun; [done|]. simplify_eq.
  assert (cell = "") as ->
    by (apply empty_of_free_mark; [by eapply Forall_lookup_1|done]).
  exists g, G, (moved payload G w). split_and!; [done|done| |done|..].
  - apply store_set_lookup_eq. by eapply lookup_lt_Some.
  - pose proof (count_mark_insert "" "" (next_player G) _ _ Hcell) as H.
    simpl. destruct Hnp as [Hp|Hp]; rewrite Hp in *;
      repeat case_decide; try done; lia.
  - pose proof (count_mark_insert (next_player G) "" (next_player G) _ _ Hcell) as H.
    simpl. destruct Hnp as [Hp|Hp]; rewrite Hp in *;
      repeat case_decide; try done; lia.
  - intros m Hm Hother.
    pose proof (count_mark_insert m "" (next_player G) _ _ Hcell) as H.
    simpl. repeat case_decide; try done; lia.
Qed.

(** X6.  The state a successful move returns is the state a fetch of the
    same identifier returns right after it, on any store. *)
Theorem move_response_is_fetched_state (s s' : Store) (payload : MoveRequest)
    (gameId : string) (st : GameState) :
  make_move payload gameId s = (Ok st, s') →
  get_game_state gameId s' = (Ok st, s').
Proof.
  unfold get_game_state, make_move, _GAMES_get, get_status, get_next_player,
    board_getitem, board_setitem, get_board, set_next_player, to_state, deref,
    bind, ret, lift, raise.
  destruct (_GAMES s !! gameId) as [g|] eqn:Hid; [|done].
  case_bool_decide; [done|].
  destruct (negb _); [done|].
  destruct (getitem _ _) as [cell|e']; [|done].
  destruct (in_X_O cell); [done|].
  destruct (setitem _ _ _) as [b'|e']; [|done].
  match goal with |- context [_update_status g ?s1] =>
    destruct (_update_status_outcome g s1) as [[v Hup]| Hup]; rewrite Hup
  end; [|done].
  case_bool_decide; intros [= <- <-]; simpl; by rewrite Hid.
Qed.

(** ** The dictionary over sequences of requests *)

Lemma step_registry (s : Store) (r : request) :
  _GAMES (step r s)
  = match r with
    | POST_games uuid => <[uuid := length (objects s)]> (_GAMES s)
    | _ => _GAMES s
    end.
Proof.
  destruct r as [uuid|gameId|gameId payload]; simpl.
  - done.
  - by rewrite get_game_state_store.
  - apply make_move_registry.
Qed.

Lemma get_game_state_result (s : Store) (gameId : string) :
  (get_game_state gameId s).1
  = match _GAMES s !! gameId with
    | Some g => Ok (state_of (objects s !!! g))
    | None => Raise GameNotFound
    end.
Proof.
  unfold get_game_state, _GAMES_get, to_state, deref, bind, ret, raise.
  by destruct (_GAMES s !! gameId).
Qed.

(** X7.  Games are never removed: an identifier the dictionary holds stays
    in it after any sequence of requests, on any store, and it keeps naming
    the same object unless a later [create_game] drew that identifier
    again. *)
Theorem registry_bindings_persist (s : Store) (gameId : string) (g : addr)
    (rs : list request) :
  _GAMES s !! gameId = Some g →
  is_Some (_GAMES (run rs s) !! gameId) ∧
  (POST_games gameId ∉ rs → _GAMES (run rs s) !! gameId = Some g).
Proof.
  intros Hid. induction rs as [|r rs [Hsome Hsame]] using rev_ind.
  - split; [by exists g|done].
  - rewrite run_snoc, step_registry. split.
    + destruct r as [uuid| |]; try done.
      rewrite lookup_insert. by case_decide.
    + intros Hnot. rewrite not_elem_of_app, list_elem_of_singleton in Hnot.
      destruct Hnot as [Hrs Hr]. specialize (Hsame Hrs).
      destruct r as [uuid| |]; try done.
      rewrite lookup_insert_ne; [done|]. congruence.
Qed.

(** X8.  A request addressed to another identifier, whether it creates a
    game, fetches one or moves in one, does not change what a fetch of this
    identifier returns. *)
Theorem other_requests_leave_fetch (s : Store) (r : request) (gameId : string) :
  reachable s → target r ≠ gameId →
  (get_game_state gameId (step r s)).1 = (get_game_state gameId s).1.
Proof.
  intros Hreach Hother. pose proof (reachable_inv _ Hreach) as Hinv.
  pose proof Hinv as (Halloc & Hinj & _).
  destruct (step_cases s r Hinv)
    as [->|[(uuid & -> & ->)|(id' & payload & g' & G' & w & -> & Hid' & _ & _ &
                              _ & _ & _ & _ & _ & ->)]]; [done|..];
    rewrite !get_game_state_result; simpl in *.
  - rewrite lookup_insert_ne by done.
    destruct (_GAMES s !! gameId) as [g|] eqn:Hid; [|done].
    rewrite lookup_total_app_l; [done|]. by eapply Halloc.
  - destruct (_GAMES s !! gameId) as [g|] eqn:Hid; [|done].
    rewrite list_lookup_total_insert_ne; [done|].
    intros ->. by destruct Hother; eapply Hinj.
Qed.

(** ** What the handlers return *)

Lemma documented_state_of (G : _Game) : game_inv G → documented_state (state_of G).
Proof. by intros ([Hlen Hmarks] & Hnp & Hst & _). Qed.

(** X9.  Every state a fetch or a move returns has the shape the fields of
    [GameState] document: nine cells, each '', 'X' or 'O'; a next player
    'X' or 'O'; a status among the four. *)
Theorem returned_state_documented (s : Store) (gameId : string)
    (payload : MoveRequest) (st : GameState) :
  reachable s →
  (get_game_state gameId s).1 = Ok st ∨ (make_move payload gameId s).1 = Ok st →
  documented_state st.
Proof.
  intros Hreach Hret.
  destruct (reachable_inv _ Hreach) as (Halloc & _ & Hgames).
  destruct (_GAMES s !! gameId) as [g|] eqn:Hid; last first.
  { destruct Hret as [Hget|Hmove].
    - by rewrite get_game_state_result, Hid in Hget.
    - by rewrite make_move_not_found in Hmove. }
  destruct (lookup_lt_is_Some_2 (objects s) g) as [G HG]; [by eapply Halloc|].
  pose proof (Forall_lookup_1 _ _ _ _ Hgames HG) as HGinv.
  destruct Hret as [Hget|Hmove].
  - rewrite get_game_state_result, Hid, (deref_lookup _ _ _ HG) in Hget.
    simplify_eq. by apply documented_state_of.
  - destruct (make_move_cases s payload gameId g G Hid HG (proj1 (proj1 HGinv)))
      as [(e & _ & _ & Hr)|(Hst & Hpos & cell & w & Hcell & Hfree & _ & Hr)];
      rewrite Hr in Hmove; [done|]. simpl in Hmove. simplify_eq.
    apply documented_state_of. by eapply game_inv_moved.
Qed.

(** X10.  With a payload inside the declared bounds, a move on a reachable
    store either succeeds or raises one of [GameNotFound], [GameFinished]
    and [CellOccupied], leaving the store as it was: the defensive position
    check never fires and no [IndexError] escapes. *)
Theorem validated_move_outcomes (s : Store) (payload : MoveRequest) (gameId : string) :
  reachable s → MoveRequest_valid payload = true →
  (∃ st s', make_move payload gameId s = (Ok st, s')) ∨
  make_move payload gameId s = (Raise GameNotFound, s) ∨
  make_move payload gameId s = (Raise GameFinished, s) ∨
  make_move payload gameId s = (Raise CellOccupied, s).
Proof.
  intros Hreach Hvalid%MoveRequest_valid_bounds.
  destruct (reachable_inv _ Hreach) as (Halloc & _ & Hgames).
  destruct (_GAMES s !! gameId) as [g|] eqn:Hid; last first.
  { right. left. by apply make_move_not_found. }
  destruct (lookup_lt_is_Some_2 (objects s) g) as [G HG]; [by eapply Halloc|].
  destruct (Forall_lookup_1 _ _ _ _ Hgames HG) as ([Hlen Hmarks] & _).
  destruct (decide (status G = "IN_PROGRESS")) as [Hst|Hst]; last first.
  { right. right. left. by eapply make_move_finished. }
  destruct (lookup_lt_is_Some_2 (board G) (Z.to_nat (position payload)))
    as [cell Hcell]; [lia|].
  destruct (in_X_O cell) eqn:Hocc.
  { right. right. right. by eapply make_move_occupied. }
  left. destruct (make_move_ok s payload gameId g G Hid HG cell)
    as (w & _ & Hrun); [done..|]. eauto.
Qed.

(** ** [_check_winner] on any strings *)

Lemma getitem_out_of_range {A} (l : list A) (i : Z) :
  (Z.of_nat (length l) ≤ i)%Z → getitem l i = Raise IndexError.
Proof.
  intros Hi. unfold getitem, list_index.
  rewrite !bool_decide_eq_false_2 by lia. done.
Qed.

(** X11.  On a board of nine cells holding any strings, [_check_winner]
    never raises; a winner it returns is not the empty string and is the
    content of the first completed line in the order of the line table; it
    returns [None] exactly when no line is completed. *)
Theorem _check_winner_nine_cells (b : list string) :
  length b = 9 →
  ∃ w, _check_winner b = Ok w ∧
       (∀ m, w = Some m → m ≠ "" ∧ first_completed b m) ∧
       (w = None ↔ ∀ m, ¬ wins b m).
Proof.
  intros Hlen.
  destruct (_check_winner_loop_first b winning_lines) as (w & Hw & Hspec).
  { rewrite Hlen. apply winning_lines_in_range. }
  exists w. split; [done|]. destruct w as [m|].
  - destruct Hspec as (pre & l & post & Heq & Hl & Hpre). split.
    + intros m' [= <-]. split; [apply Hl|]. by exists pre, l, post.
    + split; [done|]. intros Hno. destruct (Hno m). exists l. split; [|done].
      unfold winning_lines in *. rewrite Heq. set_solver.
  - split; [done|]. split; [|done]. intros _ m (l & Hin & Hl). by eapply Hspec.
Qed.

(** X12.  On a board of at most six cells [_check_winner] never answers
    that there is no winner: it returns the content of a completed first or
    second row, or it raises [IndexError]. *)
Theorem _check_winner_short_board (b : list string) :
  (length b ≤ 6)%nat →
  _check_winner b = Raise IndexError ∨
  ∃ m, _check_winner b = Ok (Some m) ∧ m ≠ "" ∧
       (line_wins b m (0, 1, 2)%Z ∨ line_wins b m (3, 4, 5)%Z).
Proof.
  intros Hlen. unfold _check_winner, winning_lines.
  assert (∀ i j k x, (0 ≤ i)%Z → (0 ≤ j)%Z → (0 ≤ k)%Z →
            line_test b i j k = Ok true → getitem b i = Ok x →
            x ≠ "" ∧ line_wins b x (i, j, k)) as Hline.
  { intros i j k x Hi Hj Hk Ht Hx. unfold line_test in Ht. rewrite Hx in Ht.
    unfold truthy in Ht. case_bool_decide as Hne; [|done].
    destruct (getitem b j) as [y|] eqn:Hy; [|done].
    case_bool_decide as Hxy; [|done]. subst y.
    destruct (getitem b k) as [z|] eqn:Hz; [|done].
    case_bool_decide as Hxz; [|by simplify_eq]. subst z.
    assert (∀ n, (0 ≤ n)%Z → getitem b n = Ok x → b !! Z.to_nat n = Some x) as Hget.
    { intros n Hn. unfold getitem, list_index.
      rewrite (bool_decide_eq_false_2 (- _ ≤ n < 0)%Z) by lia.
      case_bool_decide; simpl; [|done]. by destruct (b !! Z.to_nat n); intros [= ->]. }
    split; [done|]. split; [done|]. simpl. split_and!; by apply Hget. }
  simpl.
  destruct (line_test b 0 1 2) as [[|]|e] eqn:H0.
  - destruct (getitem b 0) as [x|e] eqn:Hx.
    + right. exists x. destruct (Hline 0 1 2 x)%Z as [? ?]; try done. eauto.
    + left. by rewrite (getitem_raises _ _ _ Hx).
  - destruct (line_test b 3 4 5) as [[|]|e] eqn:H3.
    + destruct (getitem b 3) as [x|e] eqn:Hx.
      * right. exists x. destruct (Hline 3 4 5 x)%Z as [? ?]; try done. eauto.
      * left. by rewrite (getitem_raises _ _ _ Hx).
    + left. unfold line_test at 1. by rewrite getitem_out_of_range by lia.
    + left. by rewrite (line_test_raises _ _ _ _ _ H3).
  - left. by rewrite (line_test_raises _ _ _ _ _ H0).
Qed.

(** ** [_update_status] on any store *)

(** X13.  On any store, for a game with a nine-cell board of any strings,
    [_update_status] does not raise, assigns one of the four statuses,
    leaves the board, the next player and every other object as they were,
    and a second run right after it changes nothing. *)
Theorem update_status_idempotent (s : Store) (g : addr) (G : _Game) :
  objects s !! g = Some G → length (board G) = 9 →
  ∃ st,
    (st = "IN_PROGRESS" ∨ terminal st) ∧
    _update_status g s = (Ok tt, store_set s g (with_status G st)) ∧
    _update_status g (store_set s g (with_status G st))
      = (Ok tt, store_set s g (with_status G st)).
Proof.
  intros HG Hlen. apply lookup_lt_Some in HG as Hg.
  destruct (_update_status_run s g G HG Hlen) as (w & Hw & Hrun).
  exists (status_of w (board G)). split_and!; [apply status_of_cases|done|].
  destruct (_update_status_run (store_set s g (with_status G (status_of w (board G))))
              g (with_status G (status_of w (board G)))) as (w' & Hw' & ->).
  { by apply store_set_lookup_eq. }
  { done. }
  simpl in Hw'. rewrite Hw in Hw'. simplify_eq. by rewrite store_set_twice.
Qed.

(** ** The further properties on the worked runs *)

Lemma reachable_drawn : reachable drawn_store.
Proof. by exists drawn. Defined.

Lemma update_status_stable_witness :
  _update_status 0 played_store = (Ok tt, played_store).
Proof.
  apply (update_status_stable played_store 0 game_a).
  - apply reachable_played.
  - vm_compute. reflexivity.
Defined.

Lemma reachable_status_meaning_witness :
  wins (board game_a) "X" ∧ ¬ wins (board game_a) "O".
Proof.
  destruct (reachable_status_meaning played_store 0 game_a) as (HX & _ & Hone & _).
  - apply reachable_played.
  - vm_compute. reflexivity.
  - split.
    + apply HX. reflexivity.
    + intros HO. apply Hone. split; [apply HX; reflexivity|exact HO].
Defined.

Lemma terminal_game_last_mover_witness :
  next_player game_d = "X" ∧ count_mark "" (board game_d) = 0 ∧
  count_mark "X" (board game_d) = 5 ∧ count_mark "O" (board game_d) = 4.
Proof.
  destruct (terminal_game_last_mover drawn_store 0 game_d) as (_ & _ & Hdraw).
  - apply reachable_drawn.
  - vm_compute. reflexivity.
  - apply Hdraw. reflexivity.
Defined.

Lemma in_progress_has_move_witness :
  ∃ pos st s',
    (0 ≤ pos ≤ 8)%Z ∧ board game_c !! Z.to_nat pos = Some "" ∧
    make_move {| position := pos |} "c" played_store = (Ok st, s').
Proof.
  apply (in_progress_has_move played_store "c" 2 game_c).
  - apply reachable_played.
  - vm_compute. reflexivity.
  - vm_compute. reflexivity.
  - reflexivity.
Defined.

Lemma successful_move_fills_one_cell_witness :
  ∃ g G G',
    _GAMES played_store !! "c" = Some g ∧ objects played_store !! g = Some G ∧
    objects (make_move (move 0) "c" played_store).2 !! g = Some G' ∧
    count_mark "" (board G') + 1 = count_mark "" (board G).
Proof.
  destruct (successful_move_fills_one_cell played_store
              (make_move (move 0) "c" played_store).2 (move 0) "c"
              {| state_board := ["O"; ""; ""; ""; "X"; ""; ""; ""; ""];
                 nextPlayer := "X"; state_status := "IN_PROGRESS" |})
    as (g & G & G' & Hid & HG & HG' & _ & Hempty & _).
  - apply reachable_played.
  - vm_compute. reflexivity.
  - exists g, G, G'. repeat split; assumption.
Defined.

Lemma move_response_is_fetched_state_witness :
  get_game_state "c" (make_move (move 0) "c" played_store).2
  = (Ok {| state_board := ["O"; ""; ""; ""; "X"; ""; ""; ""; ""];
           nextPlayer := "X"; state_status := "IN_PROGRESS" |},
     (make_move (move 0) "c" played_store).2).
Proof.
  apply (move_response_is_fetched_state played_store _ (move 0)).
  vm_compute. reflexivity.
Defined.

Lemma registry_bindings_persist_witness :
  _GAMES (run [POST_games "z"; POST_moves "a" (move 4); GET_game "a"] played_store)
    !! "a" = Some 0.
Proof.
  apply (registry_bindings_persist played_store "a" 0).
  - vm_compute. reflexivity.
  - intros Hin.
    repeat (apply elem_of_cons in Hin as [Hin|Hin]; [discriminate Hin|]).
    apply elem_of_nil in Hin. exact Hin.
Defined.

Lemma other_requests_leave_fetch_witness :
  (get_game_state "c" (step (POST_games "a") played_store)).1
  = (get_game_state "c" played_store).1.
Proof.
  apply (other_requests_leave_fetch played_store (POST_games "a") "c").
  - apply reachable_played.
  - discriminate.
Defined.

Lemma returned_state_documented_witness : documented_state (state_of game_a).
Proof.
  apply (returned_state_documented played_store "a" (move 0)).
  - apply reachable_played.
  - left. vm_compute. reflexivity.
Defined.

Lemma validated_move_outcomes_witness :
  (∃ st s', make_move (move 4) "c" played_store = (Ok st, s')) ∨
  make_move (move 4) "c" played_store = (Raise GameNotFound, played_store) ∨
  make_move (move 4) "c" played_store = (Raise GameFinished, played_store) ∨
  make_move (move 4) "c" played_store = (Raise CellOccupied, played_store).
Proof.
  apply (validated_move_outcomes played_store (move 4) "c").
  - apply reachable_played.
  - reflexivity.
Defined.

Lemma _check_winner_nine_cells_witness :
  ∃ w, _check_winner (board game_a) = Ok w ∧
       (∀ m, w = Some m → m ≠ "" ∧ first_completed (board game_a) m) ∧
       (w = None ↔ ∀ m, ¬ wins (board game_a) m).
Proof. apply (_check_winner_nine_cells (board game_a)). reflexivity. Defined.

Lemma _check_winner_short_board_witness :
  _check_winner ["X"; "X"; ""; ""; ""] = Raise IndexError ∨
  ∃ m, _check_winner ["X"; "X"; ""; ""; ""] = Ok (Some m) ∧ m ≠ "" ∧
       (line_wins ["X"; "X"; ""; ""; ""] m (0, 1, 2)%Z ∨
        line_wins ["X"; "X"; ""; ""; ""] m (3, 4, 5)%Z).
Proof. apply (_check_winner_short_board ["X"; "X"; ""; ""; ""]). simpl. lia. Defined.

Lemma update_status_idempotent_witness :
  ∃ st,
    (st = "IN_PROGRESS" ∨ terminal st) ∧
    _update_status 0 two_lines_store
      = (Ok tt, store_set two_lines_store 0 (with_status two_lines st)) ∧
    _update_status 0 (store_set two_lines_store 0 (with_status two_lines st))
      = (Ok tt, store_set two_lines_store 0 (with_status two_lines st)).
Proof. apply (update_status_idempotent two_lines_store 0 two_lines); reflexivity. Defined.
